(** * Illustrator importer: shallow embedding of [app.tsx] and its properties

    The development embeds the conversion pipeline of
    [src/intents/design_editor/app.tsx]:
    - the shape path synthesizer [generateShapePath],
    - the font matcher [norm], [stripStyle], [findCanvaFont] and the
      interactive resolution [resolveFontRef] / [handlePickFont] /
      [handleUseSvg],
    - the layout-to-scene loop of [handleImportLayout] with its opacity
      bookkeeping,
    - the page-creation retry loop.

    Modelling conventions.
    - A JS [number] is an exact rational ([Q]); [Math.round x] is
      [floor (x + 1/2)], [Math.ceil] is the ceiling.  The only place where
      binary64 rounding could change an outcome of interest (the golden
      ellipse value) is re-evaluated on [PrimFloat] in [Binary64].
    - A JS string is a [string] of 8-bit characters; [toLowerCase], [\s]
      and [trim] act on the ASCII range.
    - The catalog maps ([rawC], which the code iterates, and [normC]) are
      insertion-ordered association lists ([JsMap]); the maps that are
      only looked up ([imageRefs], [resolvedFonts], the cache of user
      choices) are [gmap]s.
    - [FONT_WEIGHT_MAP] and [TEXT_ALIGN_MAP] are read by their own keys;
      properties inherited from [Object.prototype] are not modelled.
    - [addLog], [setStatus] and [setProgress] only feed the on-screen log
      and are left out. *)

From Stdlib Require Import ZArith QArith Qround Qminmax Qabs String Ascii List Lia Bool.
From Stdlib Require Import Sorted Permutation Lqa.
From Stdlib Require Floats.
From stdpp Require Import base option list strings gmap.

Import ListNotations.
Local Open Scope string_scope.
Local Open Scope Z_scope.

(* ================================================================== *)
(** ** JS strings *)
(* ================================================================== *)

Module JsString.

Definition is_upper (c : ascii) : bool :=
  let n := nat_of_ascii c in (Nat.leb 65 n && Nat.leb n 90)%bool.

Definition lower_char (c : ascii) : ascii :=
  if is_upper c then ascii_of_nat (nat_of_ascii c + 32) else c.

(** [s.toLowerCase()] *)
Fixpoint toLowerCase (s : string) : string :=
  match s with
  | EmptyString => EmptyString
  | String c t => String (lower_char c) (toLowerCase t)
  end.

(** The class [\s]: TAB, LF, VT, FF, CR and space. *)
Definition is_space (c : ascii) : bool :=
  let n := nat_of_ascii c in ((Nat.leb 9 n && Nat.leb n 13) || Nat.eqb n 32)%bool.

(** The class [[\s\-]]. *)
Definition is_space_hyphen (c : ascii) : bool :=
  (is_space c || Ascii.eqb c "-")%bool.

(** The class [[\s\-_]]. *)
Definition is_separator (c : ascii) : bool :=
  (is_space c || Ascii.eqb c "-" || Ascii.eqb c "_")%bool.

(** [s.replace(/[\s\-_]+/g, "")]: every separator character disappears. *)
Fixpoint remove_separators (s : string) : string :=
  match s with
  | EmptyString => EmptyString
  | String c t =>
      if is_separator c then remove_separators t
      else String c (remove_separators t)
  end.

Fixpoint trimStart (s : string) : string :=
  match s with
  | EmptyString => EmptyString
  | String c t => if is_space c then trimStart t else s
  end.

Fixpoint trimEnd (s : string) : string :=
  match s with
  | EmptyString => EmptyString
  | String c t =>
      match trimEnd t with
      | EmptyString => if is_space c then EmptyString else String c EmptyString
      | t' => String c t'
      end
  end.

(** [s.trim()] *)
Definition trim (s : string) : string := trimEnd (trimStart s).

(** [s.includes(sub)] *)
Fixpoint includes (s sub : string) : bool :=
  (String.prefix sub s ||
   match s with
   | EmptyString => false
   | String _ t => includes t sub
   end)%bool.

(** Truthiness of a string: [""] is falsy. *)
Definition truthy (s : string) : bool :=
  match s with EmptyString => false | _ => true end.

(** [s.substring(0, n)] *)
Fixpoint take (n : nat) (s : string) : string :=
  match n, s with
  | S k, String c t => String c (take k t)
  | _, _ => EmptyString
  end.

Fixpoint drop (n : nat) (s : string) : string :=
  match n, s with
  | S k, String _ t => drop k t
  | _, _ => s
  end.

(** [parts.join(sep)] *)
Fixpoint join (sep : string) (parts : list string) : string :=
  match parts with
  | [] => EmptyString
  | [p] => p
  | p :: rest => p ++ sep ++ join sep rest
  end.

(** Number of occurrences of a character. *)
Fixpoint count_char (c : ascii) (s : string) : nat :=
  match s with
  | EmptyString => O
  | String d t => (if Ascii.eqb c d then 1 else 0) + count_char c t
  end.

(** [s.endsWith(suffix)] *)
Fixpoint endsWith (s suffix : string) : bool :=
  (String.eqb s suffix ||
   match s with
   | EmptyString => false
   | String _ t => endsWith t suffix
   end)%bool.

(** [s.split(sep)] for a one-character separator: [""] splits into
    [[""]]. *)
Fixpoint split (sep : ascii) (s : string) : list string :=
  match s with
  | EmptyString => [EmptyString]
  | String c t =>
      if Ascii.eqb c sep then EmptyString :: split sep t
      else
        match split sep t with
        | h :: r => String c h :: r
        | [] => [String c EmptyString]
        end
  end.

End JsString.

(* ================================================================== *)
(** ** JS numbers *)
(* ================================================================== *)

Module JsNumber.

Local Open Scope Q_scope.

(** [Math.round]: nearest integer, ties towards +infinity. *)
Definition Math_round (x : Q) : Z := Qfloor (x + (1 # 2)).

(** [Math.ceil] *)
Definition Math_ceil (x : Q) : Z := Qceiling x.

Definition Qltb (x y : Q) : bool := negb (Qle_bool y x).

(** [Math.min(a, b, c)] *)
Definition Math_min3 (a b c : Q) : Q := Qmin a (Qmin b c).

Definition digit_char (d : Z) : ascii :=
  match Z.to_nat d with
  | 0 => "0" | 1 => "1" | 2 => "2" | 3 => "3" | 4 => "4"
  | 5 => "5" | 6 => "6" | 7 => "7" | 8 => "8" | _ => "9"
  end%nat%char.

(** Decimal digits of a non-negative integer, most significant first.
    [fuel] bounds the number of digits. *)
Fixpoint int_digits (fuel : nat) (n : Z) (acc : string) : string :=
  match fuel with
  | O => acc
  | S f =>
      let acc' := String (digit_char (n mod 10)) acc in
      if (n / 10 =? 0)%Z then acc' else int_digits f (n / 10) acc'
  end.

(** Digits after the decimal point of [num / den], [0 <= num < den]. *)
Fixpoint frac_digits (fuel : nat) (num den : Z) : string :=
  match fuel with
  | O => EmptyString
  | S f =>
      if (num =? 0)%Z then EmptyString
      else String (digit_char ((num * 10) / den))
                  (frac_digits f ((num * 10) mod den) den)
  end.

(** [String(x)] for the numbers the program prints: integers and
    hundredths below 1e21, written in plain decimal notation without
    trailing zeros; [-0] prints as [0]. *)
Definition toString (x : Q) : string :=
  let n := Qnum x in
  let d := Z.pos (Qden x) in
  let a := Z.abs n in
  let body :=
    (int_digits 400 (a / d) EmptyString ++
     (if (a mod d =? 0)%Z then EmptyString
      else String "."%char (frac_digits 30 (a mod d) d)))%string in
  if (n <? 0)%Z then String "-"%char body else body.

End JsNumber.

Import JsString JsNumber.


(* ================================================================== *)
(** ** Data model (the type declarations of the source) *)
(* ================================================================== *)

Record TextData := {
  content : string;
  fontFamily : string;
  fontPostScriptName : option string;
  fontSize : Q;
  (** read through [?.], hence possibly absent *)
  fontWeight : option string;
  fontStyle : string;
  (** read through [||], hence possibly absent *)
  color : option string;
  alignment : string;
  lineHeight : Q;
  letterSpacing : Q;
  textDecoration : string;
}.

Inductive ClipType := ellipse | rect | unknown.

Record ClipShape := {
  clipType : ClipType;
  cornerRadius : option Q;
}.

Record StrokeBounds := {
  sb_x : Q; sb_y : Q;
  sb_width : Q; sb_height : Q;
}.

Inductive ObjType := svg | png | text | clipMask.

Record LayoutObject := {
  index : Z;
  fileName : string;
  contentFileName : option string;
  strokeFileName : option string;
  strokeBounds : option StrokeBounds;
  type : ObjType;
  objectType : string;
  x : Q; y : Q;
  width : Q; height : Q;
  (** read through [??], hence possibly null *)
  zIndex : option Z;
  (** compared with [undefined] before use *)
  opacity : option Q;
  textData : option TextData;
  textSvgFileName : option string;
  clipShape : option ClipShape;
}.

Record Layout := {
  artboardName : string;
  layoutWidth : Q; layoutHeight : Q;
  objects : list LayoutObject;
}.

(** Opaque platform references. *)
Inductive FontRef := MkFontRef (token : string).
Inductive ImageRef := MkImageRef (token : string).

(** [type FontChoice = FontRef | "use_svg"] *)
Inductive FontChoice := FontRefChoice (r : FontRef) | use_svg.

#[global] Instance FontRef_eq_dec : EqDecision FontRef.
Proof. solve_decision. Defined.
#[global] Instance ImageRef_eq_dec : EqDecision ImageRef.
Proof. solve_decision. Defined.
#[global] Instance FontChoice_eq_dec : EqDecision FontChoice.
Proof. solve_decision. Defined.

(** The two lookup tables: plain objects read by key (own keys only). *)
Definition FONT_WEIGHT_MAP : gmap string string :=
  list_to_map
    [ ("normal", "normal"); ("thin", "thin"); ("extralight", "extralight");
      ("light", "light"); ("medium", "medium"); ("semibold", "semibold");
      ("bold", "bold"); ("ultrabold", "ultrabold"); ("heavy", "heavy");
      ("black", "heavy") ].

Definition TEXT_ALIGN_MAP : gmap string string :=
  list_to_map
    [ ("left", "start"); ("center", "center"); ("right", "end");
      ("justify", "justify") ].

Definition TEXT_WIDTH_PADDING : Q := 115 # 100.

(* ================================================================== *)
(** ** Shape path synthesizer *)
(* ================================================================== *)

(** An entry of the array literal that is joined into the path: a command
    letter or a number. *)
Inductive PathToken := Cmd (c : string) | Num (v : Q).

Definition render (t : PathToken) : string :=
  match t with
  | Cmd c => c
  | Num v => toString v
  end.

(** [const r2 = (v) => Math.round(v * 100) / 100] *)
Definition r2 (v : Q) : Q := (inject_Z (Math_round (v * 100)) / 100)%Q.

(** [const K = 0.5523] *)
Definition K : Q := 5523 # 10000.

Definition ellipseTokens (w h : Q) : list PathToken :=
  let cx := (w / 2)%Q in let cy := (h / 2)%Q in
  let rx := (w / 2)%Q in let ry := (h / 2)%Q in
  [ Cmd "M"; Num (r2 cx); Num 0;
    Cmd "C"; Num (r2 (cx + rx * K)); Num 0; Num (r2 w); Num (r2 (cy - ry * K)); Num (r2 w); Num (r2 cy);
    Cmd "C"; Num (r2 w); Num (r2 (cy + ry * K)); Num (r2 (cx + rx * K)); Num (r2 h); Num (r2 cx); Num (r2 h);
    Cmd "C"; Num (r2 (cx - rx * K)); Num (r2 h); Num 0; Num (r2 (cy + ry * K)); Num 0; Num (r2 cy);
    Cmd "C"; Num 0; Num (r2 (cy - ry * K)); Num (r2 (cx - rx * K)); Num 0; Num (r2 cx); Num 0;
    Cmd "Z" ]%Q.

Definition plainRectPath (w h : Q) : string :=
  "M 0 0 L " ++ toString (r2 w) ++ " 0 L " ++ toString (r2 w) ++ " " ++
  toString (r2 h) ++ " L 0 " ++ toString (r2 h) ++ " Z".

(** [const rr = Math.min(cr, w / 2, h / 2)] *)
Definition effectiveRadius (cr w h : Q) : Q := Math_min3 cr (w / 2) (h / 2).

Definition roundedRectTokens (w h rr : Q) : list PathToken :=
  let kk := (rr * K)%Q in
  [ Cmd "M"; Num (r2 rr); Num 0;
    Cmd "L"; Num (r2 (w - rr)); Num 0;
    Cmd "C"; Num (r2 (w - rr + kk)); Num 0; Num (r2 w); Num (r2 (rr - kk)); Num (r2 w); Num (r2 rr);
    Cmd "L"; Num (r2 w); Num (r2 (h - rr));
    Cmd "C"; Num (r2 w); Num (r2 (h - rr + kk)); Num (r2 (w - rr + kk)); Num (r2 h); Num (r2 (w - rr)); Num (r2 h);
    Cmd "L"; Num (r2 rr); Num (r2 h);
    Cmd "C"; Num (r2 (rr - kk)); Num (r2 h); Num 0; Num (r2 (h - rr + kk)); Num 0; Num (r2 (h - rr));
    Cmd "L"; Num 0; Num (r2 rr);
    Cmd "C"; Num 0; Num (r2 (rr - kk)); Num (r2 (rr - kk)); Num 0; Num (r2 rr); Num 0;
    Cmd "Z" ]%Q.

(** [clipShape.cornerRadius || 0]: an absent or zero radius is [0]. *)
Definition radiusOrZero (cs : ClipShape) : Q :=
  match cornerRadius cs with
  | Some r => if Qeq_bool r 0 then 0%Q else r
  | None => 0%Q
  end.

Definition generateShapePath (clipShape : option ClipShape) (w h : Q) : option string :=
  match clipShape with
  | None => None
  | Some cs =>
      match clipType cs with
      | ellipse => Some (join " " (render <$> ellipseTokens w h))
      | rect =>
          let cr := radiusOrZero cs in
          if Qle_bool cr 0 then Some (plainRectPath w h)
          else
            let rr := effectiveRadius cr w h in
            Some (join " " (render <$> roundedRectTokens w h rr))
      | unknown => None
      end
  end.

(* ================================================================== *)
(** ** Font name normalisation *)
(* ================================================================== *)

(** [s.toLowerCase().replace(/[\s\-_]+/g, "")] *)
Definition norm (s : string) : string := remove_separators (toLowerCase s).

(** The alternation of the style-token pattern, in source order. *)
Definition STYLE_TOKENS : list string :=
  [ "bold"; "italic"; "light"; "medium"; "thin"; "heavy"; "regular";
    "semibold"; "black"; "condensed"; "oblique"; "book"; "demi"; "ultra";
    "extra"; "narrow" ].

(** Skip a maximal run of [[\s\-]]. *)
Fixpoint skip_run (s : string) : string :=
  match s with
  | EmptyString => EmptyString
  | String c t => if is_space_hyphen c then skip_run t else s
  end.

(** First alternative that is a prefix of [s] (case-insensitively), with
    what follows it. *)
Fixpoint match_token (tokens : list string) (s : string) : option string :=
  match tokens with
  | [] => None
  | tok :: rest =>
      if String.prefix tok (toLowerCase (take (String.length tok) s))
      then Some (drop (String.length tok) s)
      else match_token rest s
  end.

(** Length of the match of [[\s\-]*(bold|...|narrow)[\s\-]*] anchored at
    the start of [s].  Both stars are greedy; since no token starts with
    a character of the class, backtracking the first star never helps. *)
Definition match_style_at (s : string) : option nat :=
  match match_token STYLE_TOKENS (skip_run s) with
  | Some rest => Some (String.length s - String.length (skip_run rest))%nat
  | None => None
  end.

(** [s.replace(/[\s\-]*(bold|...|narrow)[\s\-]*/gi, " ")]: scanning from
    the left, every match becomes one space; [skip] counts the characters
    of the current match still to be consumed. *)
Fixpoint replace_style (skip : nat) (s : string) : string :=
  match s with
  | EmptyString => EmptyString
  | String c t =>
      match skip with
      | S k => replace_style k t
      | O =>
          match match_style_at s with
          | Some n => String " "%char (replace_style (n - 1) t)
          | None => String c (replace_style 0 t)
          end
      end
  end.

Definition stripStyle (s : string) : string :=
  trim (remove_separators (replace_style 0 (toLowerCase s))).

(* ================================================================== *)
(** ** Insertion-ordered maps *)
(* ================================================================== *)

Module JsMap.

Definition t (V : Type) : Type := list (string * V).

Definition get {V} (m : t V) (k : string) : option V :=
  snd <$> List.find (fun kv => String.eqb (fst kv) k) m.

Definition has {V} (m : t V) (k : string) : bool :=
  match get m k with Some _ => true | None => false end.

(** [m.set(k, v)]: an existing key keeps its position. *)
Fixpoint set {V} (m : t V) (k : string) (v : V) : t V :=
  match m with
  | [] => [(k, v)]
  | (k', v') :: rest =>
      if String.eqb k' k then (k, v) :: rest else (k', v') :: set rest k v
  end.

Definition size {V} (m : t V) : nat := List.length m.

End JsMap.

(* ================================================================== *)
(** ** Font catalog and automatic matching *)
(* ================================================================== *)

Record Font := { font_name : string; font_ref : FontRef }.

(** Body of the [for (const font of fonts)] loop of [preloadFonts]. *)
Definition preloadFont (acc : JsMap.t FontRef * JsMap.t FontRef) (font : Font)
  : JsMap.t FontRef * JsMap.t FontRef :=
  let raw := JsMap.set (fst acc) (toLowerCase (font_name font)) (font_ref font) in
  let normalized := JsMap.set (snd acc) (norm (font_name font)) (font_ref font) in
  let stripped := stripStyle (font_name font) in
  if (truthy stripped && negb (JsMap.has normalized stripped))%bool
  then (raw, JsMap.set normalized stripped (font_ref font))
  else (raw, normalized).

(** [preloadFonts] on the result of [findFonts()]: the pair [(raw, normalized)]. *)
Definition preloadFonts (fonts : list Font) : JsMap.t FontRef * JsMap.t FontRef :=
  fold_left preloadFont fonts ([], []).

(** Tier 4: the first catalog entry whose normalized name contains, or is
    contained in, the normalized family; both at least 4 characters. *)
Fixpoint tier4 (normalized : string) (rawC : JsMap.t FontRef) : option FontRef :=
  match rawC with
  | [] => None
  | (canvaLower, ref) :: rest =>
      let canvaNorm := norm canvaLower in
      if ((4 <=? String.length canvaNorm)%nat && (4 <=? String.length normalized)%nat
          && (includes normalized canvaNorm || includes canvaNorm normalized))%bool
      then Some ref
      else tier4 normalized rest
  end.

(** Tier 5: the same on style-stripped names. *)
Fixpoint tier5 (stripped : string) (rawC : JsMap.t FontRef) : option FontRef :=
  match rawC with
  | [] => None
  | (canvaLower, ref) :: rest =>
      let canvaStripped := stripStyle canvaLower in
      if (truthy canvaStripped && (4 <=? String.length canvaStripped)%nat
          && (includes stripped canvaStripped || includes canvaStripped stripped))%bool
      then Some ref
      else tier5 stripped rest
  end.

Definition findCanvaFont (fontFamily : string) (rawC normC : JsMap.t FontRef)
  : option FontRef :=
  if (negb (truthy fontFamily) || (JsMap.size rawC =? 0)%nat)%bool then None
  else
    let lower := trim (toLowerCase fontFamily) in
    let normalized := norm fontFamily in
    let stripped := stripStyle fontFamily in
    if JsMap.has rawC lower then JsMap.get rawC lower
    else if JsMap.has normC normalized then JsMap.get normC normalized
    else if (truthy stripped && negb (String.eqb stripped normalized)
             && JsMap.has normC stripped)%bool
    then JsMap.get normC stripped
    else
      match tier4 normalized rawC with
      | Some ref => Some ref
      | None =>
          if (truthy stripped && (4 <=? String.length stripped)%nat)%bool
          then tier5 stripped rawC
          else None
      end.


(* ================================================================== *)
(** ** Interactive font resolution *)
(* ================================================================== *)

(** The part of the component state the resolution touches:
    [userFontChoicesRef.current], and the pending prompt
    ([pendingFontResolve] holds the resolver of the promise that
    [resolveFontRef] awaits; [true] stands for a held resolver). *)
Record AppState := {
  userFontChoices : gmap string FontChoice;
  pendingFontResolve : bool;
  pendingFontName : string;
}.

Definition initialState : AppState :=
  {| userFontChoices := ∅; pendingFontResolve := false; pendingFontName := "" |}.

(** Outcome of a call of [resolveFontRef] up to its first suspension:
    either it returns at once, or it awaits the promise of
    [askUserForFont], which only a click on one of the two dialog buttons
    settles. *)
Inductive Resolution :=
| Returned (choice : FontChoice)
| AwaitingUser.

Definition askUserForFont (fontFamily : string) (st : AppState) : AppState :=
  {| userFontChoices := userFontChoices st;
     pendingFontResolve := true;
     pendingFontName := fontFamily |}.

Definition resolveFontRef (fontFamily : string) (rawC normC : JsMap.t FontRef)
  (st : AppState) : Resolution * AppState :=
  match findCanvaFont fontFamily rawC normC with
  | Some autoRef => (Returned (FontRefChoice autoRef), st)
  | None =>
      match userFontChoices st !! toLowerCase fontFamily with
      | Some cached => (Returned cached, st)
      | None => (AwaitingUser, askUserForFont fontFamily st)
      end
  end.

(** What [await requestFontSelection()] does inside [handlePickFont]. *)
Inductive PickerResult :=
| PickerCompleted (font : option Font)
| PickerAborted
| PickerThrows.

Definition clearPending (choices : gmap string FontChoice) : AppState :=
  {| userFontChoices := choices; pendingFontResolve := false; pendingFontName := "" |}.

(** [handlePickFont]: the value handed to the resolver (if one is held),
    and the state afterwards. *)
Definition handlePickFont (result : PickerResult) (st : AppState)
  : option FontChoice * AppState :=
  if negb (pendingFontResolve st) then (None, st)
  else
    let fontName := pendingFontName st in
    let choices := userFontChoices st in
    match result with
    | PickerCompleted (Some font) =>
        (Some (FontRefChoice (font_ref font)),
         clearPending (<[toLowerCase fontName := FontRefChoice (font_ref font)]> choices))
    | PickerCompleted None | PickerAborted =>
        (Some use_svg, clearPending (<[toLowerCase fontName := use_svg]> choices))
    | PickerThrows =>
        (Some use_svg, clearPending choices)
    end.

(** [handleUseSvg] *)
Definition handleUseSvg (st : AppState) : option FontChoice * AppState :=
  if negb (pendingFontResolve st) then (None, st)
  else
    let fontName := pendingFontName st in
    (Some use_svg,
     clearPending (<[toLowerCase fontName := use_svg]> (userFontChoices st))).

(** The two buttons of the dialog. *)
Inductive UserAction :=
| ClickPickFont (result : PickerResult)
| ClickUseSvg.

Definition click (a : UserAction) (st : AppState) : option FontChoice * AppState :=
  match a with
  | ClickPickFont result => handlePickFont result st
  | ClickUseSvg => handleUseSvg st
  end.

(** A complete resolution: the call, and, when it suspends, the click
    that settles it.  The boolean tells whether a prompt was created. *)
Definition resolveWith (a : UserAction) (fontFamily : string)
  (rawC normC : JsMap.t FontRef) (st : AppState)
  : option FontChoice * bool * AppState :=
  match resolveFontRef fontFamily rawC normC st with
  | (Returned c, st') => (Some c, false, st')
  | (AwaitingUser, st') =>
      let '(c, st'') := click a st' in (c, true, st'')
  end.

(* ================================================================== *)
(** ** Layout-to-scene compiler *)
(* ================================================================== *)

Record ImageEl := {
  img_ref : ImageRef;
  img_top : Q; img_left : Q; img_width : Q; img_height : Q;
  img_altText : string; img_decorative : bool;
}.

Record TextEl := {
  txt_children : list string;
  txt_top : Q; txt_left : Q;
  (** [Math.ceil(...)], an integer *)
  txt_width : Z;
  (** [Math.max(1, Math.min(100, Math.round(...)))], an integer *)
  txt_fontSize : Z;
  txt_color : string;
  txt_fontWeight : string;
  txt_fontStyle : string;
  txt_textAlign : string;
  txt_decoration : option string;
  txt_fontRef : option FontRef;
}.

Record ShapeEl := {
  shp_d : string;
  shp_fill_dropTarget : bool;
  shp_fill_ref : ImageRef;
  shp_viewBox_width : Q; shp_viewBox_height : Q;
  shp_viewBox_top : Q; shp_viewBox_left : Q;
  shp_top : Q; shp_left : Q; shp_width : Q; shp_height : Q;
}.

#[local] Set Warnings "-register-all".

Inductive SceneElement :=
| Image (i : ImageEl)
| Text (t : TextEl)
| Shape (s : ShapeEl)
| Group (children : list SceneElement) (top left width height : Q).

Record OpacityAssignment := { elementIndex : nat; assignedOpacity : Q }.

(** The mutable locals of step 3 of [handleImportLayout]. *)
Record CompileState := {
  elements : list SceneElement;
  opacityMap : list OpacityAssignment;
  svgCount : nat;
  frameCount : nat;
  elementIdx : nat;
}.

Definition initialCompileState : CompileState :=
  {| elements := []; opacityMap := []; svgCount := 0; frameCount := 0;
     elementIdx := 0 |}.

(** An optional file name used as a condition: absent and [""] are falsy. *)
Definition truthyName (o : option string) : option string :=
  match o with
  | Some s => if truthy s then Some s else None
  | None => None
  end.

(** [(a.zIndex ?? a.index)] *)
Definition paintKey (o : LayoutObject) : Z :=
  match zIndex o with Some z => z | None => index o end.

Fixpoint insertByKey (o : LayoutObject) (l : list LayoutObject) : list LayoutObject :=
  match l with
  | [] => [o]
  | h :: t =>
      if (paintKey o <=? paintKey h)%Z then o :: h :: t
      else h :: insertByKey o t
  end.

(** [[...layout.objects].sort((a, b) => key a - key b)]; the sort of an
    array is stable, and the stable ascending order is unique, so a
    stable insertion sort computes it. *)
Definition sortObjects (objs : list LayoutObject) : list LayoutObject :=
  foldr insertByKey [] objs.

Definition push (e : SceneElement) (st : CompileState) : CompileState :=
  {| elements := (elements st ++ [e])%list; opacityMap := opacityMap st;
     svgCount := svgCount st; frameCount := frameCount st;
     elementIdx := elementIdx st |}.

Definition incrSvgCount (st : CompileState) : CompileState :=
  {| elements := elements st; opacityMap := opacityMap st;
     svgCount := S (svgCount st); frameCount := frameCount st;
     elementIdx := elementIdx st |}.

Definition incrFrameCount (st : CompileState) : CompileState :=
  {| elements := elements st; opacityMap := opacityMap st;
     svgCount := svgCount st; frameCount := S (frameCount st);
     elementIdx := elementIdx st |}.

(** [if (obj.opacity !== undefined && obj.opacity < 1) opacityMap.push(...);
    elementIdx++] *)
Definition recordOpacityAndAdvance (obj : LayoutObject) (st : CompileState)
  : CompileState :=
  let om :=
    match opacity obj with
    | Some op =>
        if Qltb op 1
        then (opacityMap st ++ [ {| elementIndex := elementIdx st; assignedOpacity := op |} ])%list
        else opacityMap st
    | None => opacityMap st
    end in
  {| elements := elements st; opacityMap := om;
     svgCount := svgCount st; frameCount := frameCount st;
     elementIdx := S (elementIdx st) |}.

(** The frame: a shape whose single path is filled with the content image. *)
Definition frameElement (pathD : string) (contentRef : ImageRef) (obj : LayoutObject)
  : ShapeEl :=
  {| shp_d := pathD;
     shp_fill_dropTarget := true;
     shp_fill_ref := contentRef;
     shp_viewBox_width := width obj; shp_viewBox_height := height obj;
     shp_viewBox_top := 0; shp_viewBox_left := 0;
     shp_top := y obj; shp_left := x obj;
     shp_width := width obj; shp_height := height obj |}.

(** [{ ...frameElement, top, left, width, height }] *)
Definition withBox (f : ShapeEl) (top left w h : Q) : ShapeEl :=
  {| shp_d := shp_d f;
     shp_fill_dropTarget := shp_fill_dropTarget f;
     shp_fill_ref := shp_fill_ref f;
     shp_viewBox_width := shp_viewBox_width f;
     shp_viewBox_height := shp_viewBox_height f;
     shp_viewBox_top := shp_viewBox_top f;
     shp_viewBox_left := shp_viewBox_left f;
     shp_top := top; shp_left := left; shp_width := w; shp_height := h |}.

Definition imageAt (ref : ImageRef) (top left w h : Q) (alt : string)
  (decorative : bool) : ImageEl :=
  {| img_ref := ref; img_top := top; img_left := left;
     img_width := w; img_height := h;
     img_altText := alt; img_decorative := decorative |}.

(** The element pushed for a frame, with its stroke or shadow if any. *)
Definition frameWithEffects (imageRefs : gmap string ImageRef)
  (frame : ShapeEl) (obj : LayoutObject) : SceneElement :=
  let strokeRef :=
    match truthyName (strokeFileName obj) with
    | Some f => imageRefs !! f
    | None => None
    end in
  match strokeRef, strokeBounds obj with
  | Some ref, Some sb =>
      let frameOffsetX := (x obj - sb_x sb)%Q in
      let frameOffsetY := (y obj - sb_y sb)%Q in
      Group
        [ Image (imageAt ref 0 0 (sb_width sb) (sb_height sb) "effects" true);
          Shape (withBox frame frameOffsetY frameOffsetX (width obj) (height obj)) ]
        (sb_y sb) (sb_x sb) (sb_width sb) (sb_height sb)
  | Some ref, None =>
      Group
        [ Shape (withBox frame 0 0 (shp_width frame) (shp_height frame));
          Image (imageAt ref 0 0 (width obj) (height obj) "stroke" true) ]
        (y obj) (x obj) (width obj) (height obj)
  | None, _ => Shape frame
  end.

(** [Math.max(1, Math.min(100, Math.round(td.fontSize)))] *)
Definition clampFontSize (fs : Q) : Z := Z.max 1 (Z.min 100 (Math_round fs)).

(** [Math.ceil(obj.width * TEXT_WIDTH_PADDING)] *)
Definition paddedWidth (w : Q) : Z := Math_ceil (w * TEXT_WIDTH_PADDING).

(** [td.color || "#000000"] *)
Definition colorOrBlack (td : TextData) : string :=
  match truthyName (color td) with Some c => c | None => "#000000" end.

(** [FONT_WEIGHT_MAP[td.fontWeight?.toLowerCase()] || "normal"] *)
Definition mappedWeight (td : TextData) : string :=
  match fontWeight td with
  | Some w =>
      match FONT_WEIGHT_MAP !! toLowerCase w with
      | Some v => v
      | None => "normal"
      end
  | None => "normal"
  end.

(** [TEXT_ALIGN_MAP[td.alignment] || "start"] *)
Definition mappedAlign (td : TextData) : string :=
  match TEXT_ALIGN_MAP !! alignment td with
  | Some v => v
  | None => "start"
  end.

Definition italicOrNormal (td : TextData) : string :=
  if String.eqb (fontStyle td) "italic" then "italic" else "normal".

Definition underlineOrNone (td : TextData) : string :=
  if String.eqb (textDecoration td) "underline" then "underline" else "none".

(** The text element of the "font found" branch. *)
Definition editableText (obj : LayoutObject) (td : TextData) (ref : FontRef) : TextEl :=
  {| txt_children := [content td];
     txt_top := y obj; txt_left := x obj;
     txt_width := paddedWidth (width obj);
     txt_fontSize := clampFontSize (fontSize td);
     txt_color := colorOrBlack td;
     txt_fontWeight := mappedWeight td;
     txt_fontStyle := italicOrNormal td;
     txt_textAlign := mappedAlign td;
     txt_decoration := Some (underlineOrNone td);
     txt_fontRef := Some ref |}.

(** The text element of the "neither font nor SVG" branch: no
    [decoration] and no [fontRef] property. *)
Definition bestEffortText (obj : LayoutObject) (td : TextData) : TextEl :=
  {| txt_children := [content td];
     txt_top := y obj; txt_left := x obj;
     txt_width := paddedWidth (width obj);
     txt_fontSize := clampFontSize (fontSize td);
     txt_color := colorOrBlack td;
     txt_fontWeight := mappedWeight td;
     txt_fontStyle := italicOrNormal td;
     txt_textAlign := mappedAlign td;
     txt_decoration := None;
     txt_fontRef := None |}.

(** The uploaded text SVG: [obj.textSvgFileName && imageRefs.has(...)],
    then [imageRefs.get(...)]. *)
Definition textSvgRef (imageRefs : gmap string ImageRef) (obj : LayoutObject)
  : option ImageRef :=
  match truthyName (textSvgFileName obj) with
  | Some f => imageRefs !! f
  | None => None
  end.

(** Body of [for (const obj of sorted)] in step 3; a [continue] that
    skips the object returns the state unchanged. *)
Definition compileObject (imageRefs : gmap string ImageRef)
  (resolvedFonts : gmap string FontChoice)
  (st : CompileState) (obj : LayoutObject) : CompileState :=
  match type obj, textData obj with
  | clipMask, _ =>
      let contentFile :=
        match truthyName (contentFileName obj) with
        | Some f => f
        | None => fileName obj
        end in
      match imageRefs !! contentFile with
      | None => st
      | Some contentRef =>
          match truthyName (generateShapePath (clipShape obj) (width obj) (height obj)) with
          | Some pathD =>
              let frame := frameElement pathD contentRef obj in
              recordOpacityAndAdvance obj
                (incrFrameCount (push (frameWithEffects imageRefs frame obj) st))
          | None =>
              match imageRefs !! fileName obj with
              | Some fallbackRef =>
                  recordOpacityAndAdvance obj
                    (push (Image (imageAt fallbackRef (y obj) (x obj)
                                    (width obj) (height obj) "clipped" false)) st)
              | None => st
              end
          end
      end
  | text, Some td =>
      let st' :=
        match resolvedFonts !! fontFamily td with
        | Some (FontRefChoice ref) => push (Text (editableText obj td ref)) st
        | _ =>
            match textSvgRef imageRefs obj with
            | Some ref =>
                incrSvgCount
                  (push (Image (imageAt ref (y obj) (x obj) (width obj) (height obj)
                                  (take 30 (content td)) false)) st)
            | None => push (Text (bestEffortText obj td)) st
            end
        end in
      recordOpacityAndAdvance obj st'
  | _, _ =>
      match imageRefs !! fileName obj with
      | None => st
      | Some ref =>
          recordOpacityAndAdvance obj
            (push (Image (imageAt ref (y obj) (x obj) (width obj) (height obj)
                            (fileName obj) false)) st)
      end
  end.

(** Steps 1 to 3 as far as they decide the submitted sequence: the
    objects in paint order, compiled one after the other. *)
Definition compileLayout (imageRefs : gmap string ImageRef)
  (resolvedFonts : gmap string FontChoice) (layout : Layout) : CompileState :=
  fold_left (compileObject imageRefs resolvedFonts)
            (sortObjects (objects layout)) initialCompileState.

(* ================================================================== *)
(** ** Page creation with retries *)
(* ================================================================== *)

Inductive AddPageResult :=
| PageCreated
| PageError (err : string).

(** [s.includes("rate_limit") || s.includes("RATE_LIMITED")] *)
Definition isRateLimit (s : string) : bool :=
  (includes s "rate_limit" || includes s "RATE_LIMITED")%bool.

Inductive RetryOutcome :=
| Succeeded
| Fatal (err : string)
| LoopExhausted.

(** What the retry loop did: the attempts made, the delays slept (in
    milliseconds, in order) and how it ended. *)
Record RetryRun := {
  attempts : list Z;
  delays : list Z;
  outcome : RetryOutcome;
}.

Definition afterAttempt (att : Z) (r : RetryRun) : RetryRun :=
  {| attempts := att :: attempts r; delays := delays r; outcome := outcome r |}.

Definition afterSleep (delay : Z) (r : RetryRun) : RetryRun :=
  {| attempts := attempts r; delays := delay :: delays r; outcome := outcome r |}.

(** [for (let att = ...; att <= 5; att++) { try { await addPage(...);
    break } catch (err) { ... } }]; [addPage att] is what the host
    answers to the attempt numbered [att], [fuel] bounds the number of
    iterations (five suffice from [att = 1]). *)
Fixpoint retryFrom (fuel : nat) (addPage : Z -> AddPageResult) (att delay : Z)
  : RetryRun :=
  match fuel with
  | O => {| attempts := []; delays := []; outcome := LoopExhausted |}
  | S f =>
      if (att <=? 5)%Z then
        afterAttempt att
          match addPage att with
          | PageCreated => {| attempts := []; delays := []; outcome := Succeeded |}
          | PageError s =>
              if (isRateLimit s && (att <? 5)%Z)%bool
              then afterSleep delay (retryFrom f addPage (att + 1) (delay * 2))
              else {| attempts := []; delays := []; outcome := Fatal s |}
          end
      else {| attempts := []; delays := []; outcome := LoopExhausted |}
  end.

(** [let delay = 3000; for (let att = 1; ...)] *)
Definition BASE_DELAY : Z := 3000.

Definition createPageWithRetry (addPage : Z -> AddPageResult) : RetryRun :=
  retryFrom 5 addPage 1 BASE_DELAY.

(* ================================================================== *)
(** ** The rounding of the golden ellipse on binary64 *)
(* ================================================================== *)

(** [r2] on IEEE-754 doubles, to check that the exact-rational reading of
    the arithmetic above agrees with the doubles of the engine where a
    tie decides the second decimal. *)
Module Binary64.

Import Floats.PrimFloat.
#[local] Set Warnings "-inexact-float".
Local Open Scope float_scope.

Definition two52 : float := 4503599627370496.

Definition floor (v : float) : float :=
  if abs v <? two52 then
    let t := if 0 <=? v then (v + two52) - two52 else (v - two52) + two52 in
    if v <? t then t - 1 else t
  else v.

Definition Math_round (v : float) : float :=
  let f := floor v in
  if 0.5 <=? v - f then f + 1 else f.

Definition r2 (v : float) : float := Math_round (v * 100) / 100.

Definition K : float := 0.5523.

End Binary64.

(* ================================================================== *)
(** ** Step 2 of [handleImportLayout]: the fonts of an artboard *)
(* ================================================================== *)

(** [set.add(x)] on a [Set], which iterates in insertion order. *)
Definition setAdd (s : list string) (x : string) : list string :=
  if bool_decide (x ∈ s) then s else (s ++ [x])%list.

(** [if (obj.type === "text" && obj.textData?.fontFamily)
    uniqueFonts.add(obj.textData.fontFamily)] *)
Definition addFontOf (acc : list string) (obj : LayoutObject) : list string :=
  match type obj, textData obj with
  | text, Some td => if truthy (fontFamily td) then setAdd acc (fontFamily td) else acc
  | _, _ => acc
  end.

Definition uniqueFonts (sorted : list LayoutObject) : list string :=
  fold_left addFontOf sorted [].

(** How the loop over [uniqueFonts] ends: with the map of choices, or
    suspended in front of the dialog because no click came. *)
Inductive FontsRun :=
| FontsResolved (resolvedFonts : gmap string FontChoice) (st : AppState)
                (unused : list UserAction)
| FontsSuspended (fontFamily : string) (resolvedFonts : gmap string FontChoice)
                 (st : AppState).

(** [for (const fontFamily of uniqueFonts) { const result = await
    resolveFontRef(...); if (result) resolvedFonts.set(fontFamily, result) }];
    [clicks] are the clicks on the dialog buttons, in order: each
    suspension waits for the next one. *)
Fixpoint resolveFonts (families : list string) (rawC normC : JsMap.t FontRef)
  (clicks : list UserAction) (st : AppState) (resolved : gmap string FontChoice)
  : FontsRun :=
  match families with
  | [] => FontsResolved resolved st clicks
  | f :: rest =>
      match resolveFontRef f rawC normC st with
      | (Returned c, st') =>
          resolveFonts rest rawC normC clicks st' (<[f := c]> resolved)
      | (AwaitingUser, st') =>
          match clicks with
          | [] => FontsSuspended f resolved st'
          | a :: clicks' =>
              match click a st' with
              | (Some c, st'') =>
                  resolveFonts rest rawC normC clicks' st'' (<[f := c]> resolved)
              | (None, st'') => FontsSuspended f resolved st''
              end
          end
      end
  end.

(* ================================================================== *)
(** ** The selected folder and its index *)
(* ================================================================== *)

(** What the code reads of a [File]. *)
Record File := { file_name : string; webkitRelativePath : string }.

(** [(file as any).webkitRelativePath || file.name] *)
Definition relativePath (file : File) : string :=
  if truthy (webkitRelativePath file) then webkitRelativePath file
  else file_name file.

(** [parts[parts.length - 1]] *)
Definition lastPart (parts : list string) : string := List.last parts "".

(** [if (!abm.has(dir)) abm.set(dir, new Map()); abm.get(dir)!.set(base, rp)]:
    the inner map is updated in place, so [dir] keeps its position. *)
Definition indexUnder (abm : JsMap.t (JsMap.t string)) (dir base rp : string)
  : JsMap.t (JsMap.t string) :=
  let abm1 := if JsMap.has abm dir then abm else JsMap.set abm dir [] in
  match JsMap.get abm1 dir with
  | Some m => JsMap.set abm1 dir (JsMap.set m base rp)
  | None => abm1
  end.

(** Body of [for (const file of fileList)] in [handleFolderSelect]. *)
Definition indexFile (acc : JsMap.t File * JsMap.t (JsMap.t string)) (file : File)
  : JsMap.t File * JsMap.t (JsMap.t string) :=
  let rp := relativePath file in
  let fpm := JsMap.set (fst acc) rp file in
  let parts := split "/" rp in
  if (3 <=? length parts)%nat
  then (fpm, indexUnder (snd acc) (nth 1 parts "") (lastPart parts) rp)
  else if (length parts =? 2)%nat
  then (fpm, indexUnder (snd acc) "__root__" (lastPart parts) rp)
  else (fpm, snd acc).

(** The pair [(files, artboardFileMap)] the component keeps. *)
Definition indexFiles (fileList : list File)
  : JsMap.t File * JsMap.t (JsMap.t string) :=
  fold_left indexFile fileList ([], []).

(** [const fp = m.get(fileName); if (fp) ...] *)
Definition pathIn (m : JsMap.t string) (fileName : string) : option string :=
  truthyName (JsMap.get m fileName).

(** [for (const [, m] of artboardFileMap) { const fp = m.get(fileName);
    if (fp) return files.get(fp); }]: the first path found. *)
Fixpoint firstPath (abm : JsMap.t (JsMap.t string)) (fileName : string)
  : option string :=
  match abm with
  | [] => None
  | (_, m) :: rest =>
      match pathIn m fileName with
      | Some fp => Some fp
      | None => firstPath rest fileName
      end
  end.

Definition getFile (files : JsMap.t File) (artboardFileMap : JsMap.t (JsMap.t string))
  (abName fileName : string) : option File :=
  match match JsMap.get artboardFileMap abName with
        | Some af => pathIn af fileName
        | None => None
        end with
  | Some fp => JsMap.get files fp
  | None =>
      match firstPath artboardFileMap fileName with
      | Some fp => JsMap.get files fp
      | None =>
          snd <$> List.find (fun pf => endsWith (fst pf) ("/" ++ fileName)) files
      end
  end.

(* ================================================================== *)
(** ** Step 1 of [handleImportLayout]: the uploads *)
(* ================================================================== *)

(** Body of the loop that fills [toUpload]. *)
Definition addObjectFiles (acc : list string) (obj : LayoutObject) : list string :=
  let acc1 :=
    match type obj with
    | svg | png => setAdd acc (fileName obj)
    | _ => acc
    end in
  let acc2 :=
    match truthyName (textSvgFileName obj) with
    | Some f => setAdd acc1 f
    | None => acc1
    end in
  match type obj with
  | clipMask =>
      let acc3 := setAdd acc2 (fileName obj) in
      let acc4 :=
        match truthyName (contentFileName obj) with
        | Some f => setAdd acc3 f
        | None => acc3
        end in
      match truthyName (strokeFileName obj) with
      | Some f => setAdd acc4 f
      | None => acc4
      end
  | _ => acc2
  end.

(** [Array.from(toUpload)] *)
Definition filesToUpload (sorted : list LayoutObject) : list string :=
  fold_left addObjectFiles sorted [].

Inductive Mime := image_svg | image_png.

(** [file.name.toLowerCase().endsWith(".svg") ? "image/svg+xml" : "image/png"] *)
Definition mimeOf (file : File) : Mime :=
  if endsWith (toLowerCase (file_name file)) ".svg" then image_svg else image_png.

(** [uploadFile]: [upload] is the host call on the data URL of the file;
    [None] stands for a read or upload that throws. *)
Definition uploadFile (upload : Mime -> File -> option ImageRef) (file : File)
  : option ImageRef :=
  upload (mimeOf file) file.

(** What the upload loop has done: the references it stored, the files
    it sent, the names whose upload failed, and the milliseconds it
    slept. *)
Record UploadRun := {
  uploadedRefs : gmap string ImageRef;
  uploadCalls : list File;
  uploadFailures : list string;
  uploadWaited : Z;
}.

Definition noUploads : UploadRun :=
  {| uploadedRefs := ∅; uploadCalls := []; uploadFailures := []; uploadWaited := 0 |}.

(** Body of [for (let i = 0; i < uploadList.length; i++)]. *)
Definition uploadOne (lookup : string -> option File)
  (upload : Mime -> File -> option ImageRef) (run : UploadRun) (fname : string)
  : UploadRun :=
  if negb (truthy fname) then run
  else
    match lookup fname with
    | None => run
    | Some file =>
        match uploadFile upload file with
        | Some ref =>
            {| uploadedRefs := <[fname := ref]> (uploadedRefs run);
               uploadCalls := (uploadCalls run ++ [file])%list;
               uploadFailures := uploadFailures run;
               uploadWaited := uploadWaited run + 500 |}
        | None =>
            {| uploadedRefs := uploadedRefs run;
               uploadCalls := (uploadCalls run ++ [file])%list;
               uploadFailures := (uploadFailures run ++ [fname])%list;
               uploadWaited := uploadWaited run + 500 |}
        end
    end.

Definition uploadAll (files : JsMap.t File) (artboardFileMap : JsMap.t (JsMap.t string))
  (abName : string) (upload : Mime -> File -> option ImageRef)
  (uploadList : list string) : UploadRun :=
  fold_left (uploadOne (getFile files artboardFileMap abName) upload)
            uploadList noUploads.

(* ================================================================== *)
(** ** Step 5 of [handleImportLayout]: the opacity pass *)
(* ================================================================== *)

(** What the pass reads and writes of an element of the open page. *)
Record PageElement := {
  (** [el.type === "unsupported"] *)
  el_unsupported : bool;
  el_locked : bool;
  el_transparency : option Q;
}.

(** The page of the session: [page.type === "absolute"], [page.locked]
    and [page.elements.toArray()]. *)
Record Page := {
  page_absolute : bool;
  page_locked : bool;
  page_elements : list PageElement;
}.

(** [el.transparency = 1 - opacity] *)
Definition setTransparency (op : Q) (el : PageElement) : PageElement :=
  {| el_unsupported := el_unsupported el; el_locked := el_locked el;
     el_transparency := Some (1 - op)%Q |}.

(** Body of [for (const { elementIndex, opacity } of opacityMap)]. *)
Definition applyAssignment (els : list PageElement) (a : OpacityAssignment)
  : list PageElement :=
  if (elementIndex a <? length els)%nat then
    match els !! elementIndex a with
    | Some el =>
        if (negb (el_unsupported el) && negb (el_locked el))%bool
        then <[elementIndex a := setTransparency (assignedOpacity a) el]> els
        else els
    | None => els
    end
  else els.

(** The callback given to [openDesign]: [None] when it returns before
    touching the page (the page is not absolute or is locked), else the
    elements as synced. *)
Definition opacityCallback (page : Page) (opacityMap : list OpacityAssignment)
  : option (list PageElement) :=
  if (negb (page_absolute page) || page_locked page)%bool then None
  else Some (fold_left applyAssignment opacityMap (page_elements page)).




(* ================================================================== *)
(** ** The log *)
(* ================================================================== *)

(** [prev.slice(-80)] *)
Definition lastEighty (prev : list string) : list string :=
  skipn (length prev - 80) prev.

(** [setImportLog((prev) => [...prev.slice(-80), msg])] *)
Definition addLog (prev : list string) (msg : string) : list string :=
  (lastEighty prev ++ [msg])%list.

(* ================================================================== *)
(** ** Vocabulary of the statements and sample inputs *)
(* ================================================================== *)

(** The letters of the four path commands. *)
Definition is_command_letter (c : ascii) : bool :=
  (Ascii.eqb c "M" || Ascii.eqb c "L" || Ascii.eqb c "C" || Ascii.eqb c "Z")%bool.

(** Occurrences of a character among the command entries of the array. *)
Fixpoint count_commands (c : ascii) (toks : list PathToken) : nat :=
  match toks with
  | [] => 0
  | Cmd s :: rest => count_char c s + count_commands c rest
  | Num _ :: rest => count_commands c rest
  end%nat.

(** The objects the loop leaves with [continue]: a mask whose content
    reference is missing, or whose shape cannot be synthesized while the
    fallback reference is missing too; an image (or a text without
    [textData]) whose reference is missing. *)
Definition objectSkipped (imageRefs : gmap string ImageRef) (obj : LayoutObject) : bool :=
  match type obj, textData obj with
  | clipMask, _ =>
      let contentFile :=
        match truthyName (contentFileName obj) with
        | Some f => f
        | None => fileName obj
        end in
      match imageRefs !! contentFile with
      | None => true
      | Some _ =>
          match truthyName (generateShapePath (clipShape obj) (width obj) (height obj)) with
          | Some _ => false
          | None => negb (bool_decide (is_Some (imageRefs !! fileName obj)))
          end
      end
  | text, Some _ => false
  | _, _ => negb (bool_decide (is_Some (imageRefs !! fileName obj)))
  end.

(** The assignment recorded for an emitted object, if any. *)
Definition assignmentAt (idx : nat) (obj : LayoutObject) : list OpacityAssignment :=
  match opacity obj with
  | Some op =>
      if Qltb op 1 then [ {| elementIndex := idx; assignedOpacity := op |} ] else []
  | None => []
  end.

(** What one iteration does to the sequence, the counter and the
    assignments when it emits [e] (possibly bumping a statistic). *)
Definition emits (e : SceneElement) (obj : LayoutObject) (st st' : CompileState) : Prop :=
  elements st' = (elements st ++ [e])%list
  /\ elementIdx st' = S (elementIdx st)
  /\ opacityMap st' = (opacityMap st ++ assignmentAt (elementIdx st) obj)%list.

(** The counter is the length of the sequence, and every assignment
    points into the sequence. *)
Definition inLockstep (st : CompileState) : Prop :=
  elementIdx st = length (elements st)
  /\ Forall (fun a => (elementIndex a < length (elements st))%nat) (opacityMap st).

Definition sampleObject (ty : ObjType) (idx : Z) (z : option Z) (file : string)
  (op : option Q) : LayoutObject :=
  {| index := idx; fileName := file; contentFileName := None;
     strokeFileName := None; strokeBounds := None;
     type := ty; objectType := "PathItem";
     x := 10; y := 20; width := 100; height := 40;
     zIndex := z; opacity := op; textData := None;
     textSvgFileName := None; clipShape := None |}.

Definition sampleTextData : TextData :=
  {| content := "Hello"; fontFamily := "Lato"; fontPostScriptName := None;
     fontSize := 241 # 2; fontWeight := Some "Fancy"; fontStyle := "italic";
     color := None; alignment := "middle";
     lineHeight := 12 # 10; letterSpacing := 0; textDecoration := "none" |}.

Definition sampleText (svgName : option string) : LayoutObject :=
  {| index := 0; fileName := "t0.svg"; contentFileName := None;
     strokeFileName := None; strokeBounds := None;
     type := text; objectType := "TextFrame";
     x := 10; y := 20; width := 100; height := 40;
     zIndex := Some 0; opacity := Some (1 # 2); textData := Some sampleTextData;
     textSvgFileName := svgName; clipShape := None |}.

(** An ellipse mask of 200 by 200 at the origin with content and stroke
    art, the stroke box reaching 10 units beyond the mask on every side. *)
Definition sampleMask : LayoutObject :=
  {| index := 1; fileName := "m.png"; contentFileName := Some "c.png";
     strokeFileName := Some "s.png";
     strokeBounds := Some {| sb_x := -10; sb_y := -10; sb_width := 220; sb_height := 220 |};
     type := clipMask; objectType := "GroupItem";
     x := 0; y := 0; width := 200; height := 200;
     zIndex := Some 1; opacity := Some (3 # 10); textData := None;
     textSvgFileName := None;
     clipShape := Some {| clipType := ellipse; cornerRadius := None |} |}.

Definition sampleRefs : gmap string ImageRef :=
  {[ "c.png" := MkImageRef "content"; "s.png" := MkImageRef "stroke" ]}.



(** Every character of [s] satisfies [p]. *)
Fixpoint all_chars (p : ascii -> bool) (s : string) : bool :=
  match s with
  | EmptyString => true
  | String c t => (p c && all_chars p t)%bool
  end.

(** The click on the pick button whose picker call throws. *)
Definition throwingPick (a : UserAction) : bool :=
  match a with
  | ClickPickFont PickerThrows => true
  | _ => false
  end.

(** The outcome of the upload of one name of the list. *)
Definition uploadAttempt (lookup : string -> option File)
  (upload : Mime -> File -> option ImageRef) (fname : string) : option ImageRef :=
  if truthy fname then lookup fname ≫= uploadFile upload else None.

(** The file names an object makes the importer upload. *)
Definition referencesFile (obj : LayoutObject) (f : string) : Prop :=
  ((type obj = svg \/ type obj = png \/ type obj = clipMask) /\ fileName obj = f)
  \/ truthyName (textSvgFileName obj) = Some f
  \/ (type obj = clipMask
      /\ (truthyName (contentFileName obj) = Some f
          \/ truthyName (strokeFileName obj) = Some f)).

(** What the index of a file list guarantees: a stored file is one of
    the list under its own path; a path stored under a base name in a
    folder ends with that name, is not empty, is a key of the files
    and, outside the pseudo folder of the root, lies in that folder. *)
Definition indexSound (fileList : list File)
  (idx : JsMap.t File * JsMap.t (JsMap.t string)) : Prop :=
  (forall rp file, In (rp, file) (fst idx) -> In file fileList /\ relativePath file = rp)
  /\ (forall dir m base rp,
        In (dir, m) (snd idx) -> In (base, rp) m ->
        endsWith rp ("/" ++ base) = true
        /\ truthy rp = true
        /\ JsMap.has (fst idx) rp = true
        /\ (dir <> "__root__" -> nth 1 (split "/" rp) "" = dir)).

(** The base name [base] is indexed in the folder [dir]. *)
Definition indexedIn (abm : JsMap.t (JsMap.t string)) (dir base : string) : Prop :=
  exists m, JsMap.get abm dir = Some m /\ JsMap.has m base = true.


(** What an object contributes to the sequence on its own. *)
Definition emitted (imageRefs : gmap string ImageRef)
  (resolvedFonts : gmap string FontChoice) (obj : LayoutObject) : list SceneElement :=
  elements (compileObject imageRefs resolvedFonts initialCompileState obj).

(** The elements the log counts as frames. *)
Definition isFrame (e : SceneElement) : bool :=
  match e with
  | Shape _ | Group _ _ _ _ _ => true
  | _ => false
  end.


(** The statistics agree with the sequence; the assignments are in
    increasing order of position and all below full opacity. *)
Definition countsAgree (st : CompileState) : Prop :=
  frameCount st = length (List.filter isFrame (elements st))
  /\ (svgCount st + frameCount st <= elementIdx st)%nat.

Definition assignmentsOrdered (st : CompileState) : Prop :=
  StronglySorted lt (elementIndex <$> opacityMap st)
  /\ Forall (fun a => (elementIndex a < elementIdx st)%nat
                      /\ (assignedOpacity a < 1)%Q) (opacityMap st).

(** What an assignment does to the element it points at. *)
Definition corrected (a : OpacityAssignment) (el : PageElement) : PageElement :=
  if (negb (el_unsupported el) && negb (el_locked el))%bool
  then setTransparency (assignedOpacity a) el
  else el.

(** No match of the style-token pattern starts anywhere in [s]. *)
Fixpoint noStyleToken (s : string) : bool :=
  match s with
  | EmptyString => true
  | String _ t =>
      (match match_style_at s with Some _ => false | None => true end
       && noStyleToken t)%bool
  end.

(* ================================================================== *)
(** * Properties *)
(* ================================================================== *)

(** ** Strings and numbers *)

Lemma count_char_app (c : ascii) (a b : string) :
  count_char c (a ++ b) = (count_char c a + count_char c b)%nat.
Proof.
  induction a as [|d a IH]; simpl; [reflexivity|].
  rewrite IH. lia.
Qed.

Lemma command_letter_cases (c : ascii) :
  is_command_letter c = true ->
  c = "M"%char \/ c = "L"%char \/ c = "C"%char \/ c = "Z"%char.
Proof.
  unfold is_command_letter. intros H.
  repeat (apply orb_prop in H; destruct H as [H|H]);
    apply Ascii.eqb_eq in H; auto.
Qed.

Lemma digit_char_no_command (c : ascii) (d : Z) :
  is_command_letter c = true -> Ascii.eqb c (digit_char d) = false.
Proof.
  intros H. apply command_letter_cases in H.
  unfold digit_char.
  destruct (Z.to_nat d) as [|[|[|[|[|[|[|[|[|n]]]]]]]]];
    destruct H as [->|[->|[->| ->]]]; reflexivity.
Qed.

Lemma count_char_int_digits (c : ascii) (fuel : nat) (n : Z) (acc : string) :
  is_command_letter c = true ->
  count_char c (int_digits fuel n acc) = count_char c acc.
Proof.
  intros Hc. revert n acc.
  induction fuel as [|f IH]; intros n acc; simpl; [reflexivity|].
  destruct (n / 10 =? 0)%Z.
  - simpl. now rewrite digit_char_no_command.
  - rewrite IH. simpl. now rewrite digit_char_no_command.
Qed.

Lemma count_char_frac_digits (c : ascii) (fuel : nat) (num den : Z) :
  is_command_letter c = true ->
  count_char c (frac_digits fuel num den) = 0%nat.
Proof.
  intros Hc. revert num.
  induction fuel as [|f IH]; intros num; simpl; [reflexivity|].
  destruct (num =? 0)%Z; simpl; [reflexivity|].
  now rewrite digit_char_no_command, IH.
Qed.

Lemma separator_no_command (c d : ascii) :
  is_command_letter c = true ->
  d = "."%char \/ d = "-"%char \/ d = " "%char ->
  Ascii.eqb c d = false.
Proof.
  intros Hc Hd. apply command_letter_cases in Hc.
  destruct Hc as [->|[->|[->| ->]]]; destruct Hd as [->|[->| ->]]; reflexivity.
Qed.

(** A printed number contains no command letter. *)
Lemma count_char_toString (c : ascii) (v : Q) :
  is_command_letter c = true -> count_char c (toString v) = 0%nat.
Proof.
  intros Hc. unfold toString.
  set (ip := int_digits _ _ _). set (fp := frac_digits _ _ _).
  set (body := (_ ++ _)%string).
  assert (Hbody : count_char c body = 0%nat).
  { unfold body. rewrite count_char_app. unfold ip.
    rewrite count_char_int_digits by assumption.
    destruct (_ =? 0)%Z; cbn [count_char]; [reflexivity|].
    rewrite separator_no_command by auto.
    unfold fp. now rewrite count_char_frac_digits. }
  destruct (_ <? 0)%Z; cbn [count_char]; [|assumption].
  rewrite separator_no_command by auto. assumption.
Qed.

Lemma count_char_render (c : ascii) (t : PathToken) :
  is_command_letter c = true ->
  count_char c (render t) = count_commands c [t].
Proof.
  intros Hc. destruct t as [s|v]; simpl; [lia|].
  now apply count_char_toString.
Qed.

(** In the joined path, a command letter occurs exactly as often as in
    the command entries: numbers and blanks contribute none. *)
Lemma count_char_join_render (c : ascii) (toks : list PathToken) :
  is_command_letter c = true ->
  count_char c (join " " (render <$> toks)) = count_commands c toks.
Proof.
  intros Hc. induction toks as [|t rest IH]; [reflexivity|].
  change (render <$> t :: rest) with (render t :: (render <$> rest)).
  destruct rest as [|t' rest'].
  - simpl join. rewrite count_char_render by assumption. reflexivity.
  - change (join " " (render t :: (render <$> t' :: rest')))
      with (render t ++ " " ++ join " " (render <$> t' :: rest'))%string.
    rewrite !count_char_app, IH, count_char_render by assumption.
    simpl (count_char c " ").
    rewrite separator_no_command by auto.
    destruct t; simpl; lia.
Qed.

(** ** Shape path synthesizer *)









Module Binary64Facts.

Import Floats.PrimFloat.
#[local] Set Warnings "-inexact-float".
Local Open Scope float_scope.

(** The golden ellipse on doubles: the two handle coordinates the path
    prints for [w = h = 100] are [77.62] and [22.39] under IEEE-754
    arithmetic as well. *)
Lemma binary64_golden_handles :
  Binary64.r2 (50 + 50 * Binary64.K) = 77.62 /\
  Binary64.r2 (50 - 50 * Binary64.K) = 22.39.
Proof. split; vm_compute; reflexivity. Qed.

End Binary64Facts.

(** C9, as stated, fails on the near side: the handle coordinate
    [r2(cy - ry*K)] of the path for [w = h = 100] is [22.39], at distance
    [27.61] from the centre, so not every handle coordinate lies
    [27.62] from the centre. *)
Lemma ellipse_100_near_handle_offset :
  ~ (forall v : Q, In (Num v) (ellipseTokens 100 100) ->
       (v == 0 \/ v == 50 \/ v == 100 \/ Qabs (v - 50) == 2762 # 100)%Q).
Proof.
  intros H.
  assert (Hin : In (Num (r2 (100 / 2 - 100 / 2 * K))) (ellipseTokens 100 100)).
  { unfold ellipseTokens. cbv zeta. do 7 right. left. reflexivity. }
  destruct (H _ Hin) as [E|[E|[E|E]]]; vm_compute in E; discriminate E.
Qed.

(** C9 (amended).  For an ellipse with [w = h = 100] the ratio is
    [0.5523], the offset [100 * 0.5523 / 2] rounds to [27.62], and the
    path is the golden string below: the far handles are at
    [77.62 = 50 + 27.62], the near handles at [22.39 = 50 - 27.61]
    (each coordinate is rounded, not the offset), with one move, four
    cubic segments, one close and no line. *)
Theorem generateShapePath_ellipse_100 :
  let d := "M 50 0 C 77.62 0 100 22.39 100 50 C 100 77.62 77.62 100 50 100 C 22.39 100 0 77.62 0 50 C 0 22.39 22.39 0 50 0 Z" in
  generateShapePath (Some {| clipType := ellipse; cornerRadius := None |}) 100 100 = Some d
  /\ K = 5523 # 10000
  /\ (r2 (100 * K / 2) == 2762 # 100)%Q
  /\ nth_error (ellipseTokens 100 100) 4 = Some (Num (r2 (100 / 2 + 100 / 2 * K)))
  /\ (r2 (100 / 2 + 100 / 2 * K) == 50 + (2762 # 100))%Q
  /\ (r2 (100 / 2 - 100 / 2 * K) == 50 - (2761 # 100))%Q
  /\ (forall v : Q, In (Num v) (ellipseTokens 100 100) ->
        (v == 0 \/ v == 50 \/ v == 100 \/ v == 50 + (2762 # 100) \/ v == 50 - (2761 # 100))%Q)
  /\ count_char "M" d = 1%nat /\ count_char "C" d = 4%nat
  /\ count_char "Z" d = 1%nat /\ count_char "L" d = 0%nat.
Proof.
  cbv zeta.
  split; [vm_compute; reflexivity|].
  split; [reflexivity|].
  split; [vm_compute; reflexivity|].
  split; [reflexivity|].
  split; [vm_compute; reflexivity|].
  split; [vm_compute; reflexivity|].
  split; [|repeat split; reflexivity].
  intros v Hin. unfold ellipseTokens in Hin. cbv zeta in Hin.
  repeat (destruct Hin as [Hin|Hin];
          [first [discriminate Hin
                 | injection Hin as <-; vm_compute; intuition congruence]|]).
  destruct Hin.
Qed.

(** ** Font matching *)

Lemma length_trimStart_le (s : string) :
  (String.length (trimStart s) <= String.length s)%nat.
Proof.
  induction s as [|c t IH]; simpl; [lia|].
  destruct (is_space c); simpl; lia.
Qed.

Lemma length_trimEnd_le (s : string) :
  (String.length (trimEnd s) <= String.length s)%nat.
Proof.
  induction s as [|c t IH]; simpl; [lia|].
  destruct (trimEnd t) as [|d t'].
  - destruct (is_space c); simpl; lia.
  - simpl in *. lia.
Qed.

Lemma length_trim_le (s : string) :
  (String.length (trim s) <= String.length s)%nat.
Proof.
  unfold trim. etransitivity; [apply length_trimEnd_le|apply length_trimStart_le].
Qed.

Lemma length_remove_separators_cons (c : ascii) (t : string) :
  (String.length (remove_separators t)
   <= String.length (remove_separators (String c t)))%nat.
Proof. simpl. destruct (is_separator c); simpl; lia. Qed.

(** Replacing style tokens by blanks only removes characters that
    survive the removal of separators. *)
Lemma length_replace_style_le (s : string) :
  forall skip : nat,
    (String.length (remove_separators (replace_style skip s))
     <= String.length (remove_separators s))%nat.
Proof.
  induction s as [|c t IH]; intros skip; [destruct skip; simpl; lia|].
  pose proof (length_remove_separators_cons c t) as Hc.
  cbn [replace_style]. destruct skip as [|k].
  - destruct (match_style_at (String c t)) as [n|].
    + change (remove_separators (String " " (replace_style (n - 1) t)))
        with (remove_separators (replace_style (n - 1) t)).
      specialize (IH (n - 1)%nat). lia.
    + specialize (IH 0%nat). simpl. destruct (is_separator c); simpl; lia.
  - specialize (IH k). lia.
Qed.

(** The style-stripped name is never longer than the normalized one. *)
Lemma stripStyle_length_le_norm (s : string) :
  (String.length (stripStyle s) <= String.length (norm s))%nat.
Proof.
  unfold stripStyle, norm.
  etransitivity; [apply length_trim_le|apply length_replace_style_le].
Qed.

Lemma tier4_some (normalized : string) (rawC : JsMap.t FontRef) (ref : FontRef) :
  tier4 normalized rawC = Some ref ->
  exists canvaLower,
    In (canvaLower, ref) rawC
    /\ (4 <= String.length (norm canvaLower))%nat
    /\ (4 <= String.length normalized)%nat
    /\ (includes normalized (norm canvaLower) = true
        \/ includes (norm canvaLower) normalized = true).
Proof.
  induction rawC as [|[k r] rest IH]; cbn [tier4]; [discriminate|].
  destruct (_ && _ && _)%bool eqn:E.
  - intros [= <-]. exists k.
    apply andb_prop in E as [E Hinc]. apply andb_prop in E as [H1 H2].
    apply Nat.leb_le in H1, H2. apply orb_prop in Hinc.
    split; [left; reflexivity|auto].
  - intros H. destruct (IH H) as (k' & Hin & Hrest). exists k'.
    split; [right; exact Hin|exact Hrest].
Qed.

Lemma tier5_some (stripped : string) (rawC : JsMap.t FontRef) (ref : FontRef) :
  tier5 stripped rawC = Some ref ->
  exists canvaLower,
    In (canvaLower, ref) rawC
    /\ (4 <= String.length (stripStyle canvaLower))%nat
    /\ (includes stripped (stripStyle canvaLower) = true
        \/ includes (stripStyle canvaLower) stripped = true).
Proof.
  induction rawC as [|[k r] rest IH]; cbn [tier5]; [discriminate|].
  destruct (_ && _ && _)%bool eqn:E.
  - intros [= <-]. exists k.
    apply andb_prop in E as [E Hinc]. apply andb_prop in E as [_ H2].
    apply Nat.leb_le in H2. apply orb_prop in Hinc.
    split; [left; reflexivity|auto].
  - intros H. destruct (IH H) as (k' & Hin & Hrest). exists k'.
    split; [right; exact Hin|exact Hrest].
Qed.



(** ** Font resolution *)

Lemma findCanvaFont_short_circuit (fontFamily : string) (rawC normC : JsMap.t FontRef) :
  fontFamily = "" \/ rawC = [] -> findCanvaFont fontFamily rawC normC = None.
Proof.
  intros [-> | ->]; unfold findCanvaFont; [reflexivity|].
  now rewrite orb_true_r.
Qed.

Lemma resolveFontRef_no_auto (fontFamily : string) (rawC normC : JsMap.t FontRef)
  (st : AppState) :
  findCanvaFont fontFamily rawC normC = None ->
  resolveFontRef fontFamily rawC normC st =
  match userFontChoices st !! toLowerCase fontFamily with
  | Some cached => (Returned cached, st)
  | None => (AwaitingUser, askUserForFont fontFamily st)
  end.
Proof. intros H. unfold resolveFontRef. now rewrite H. Qed.

(** C1, as stated, fails: with an empty catalog and no cached choice,
    [resolveFontRef "Arial"] does not return ["use_svg"]; it creates a
    pending prompt and waits for the user. *)
Lemma resolveFontRef_empty_catalog_prompts :
  ~ (forall (fontFamily : string) (rawC normC : JsMap.t FontRef) (st : AppState),
       fontFamily = "" \/ (rawC = [] /\ normC = []) ->
       exists st', resolveFontRef fontFamily rawC normC st = (Returned use_svg, st')
                   /\ pendingFontResolve st' = pendingFontResolve st).
Proof.
  intros H.
  destruct (H "Arial" [] [] initialState (or_intror (conj eq_refl eq_refl)))
    as (st' & Hres & _).
  vm_compute in Hres. discriminate Hres.
Qed.

(** C1 (amended).  With an empty family or an empty raw catalog,
    [findCanvaFont] answers [undefined] at once; [resolveFontRef] then
    returns the choice cached under the lowercased family if there is
    one and otherwise creates the pending prompt. *)
Theorem resolveFontRef_without_catalog
  (fontFamily : string) (rawC normC : JsMap.t FontRef) (st : AppState) :
  fontFamily = "" \/ rawC = [] ->
  findCanvaFont fontFamily rawC normC = None
  /\ resolveFontRef fontFamily rawC normC st =
     match userFontChoices st !! toLowerCase fontFamily with
     | Some cached => (Returned cached, st)
     | None => (AwaitingUser, askUserForFont fontFamily st)
     end.
Proof.
  intros H. pose proof (findCanvaFont_short_circuit _ _ normC H) as Hnone.
  split; [exact Hnone|]. now apply resolveFontRef_no_auto.
Qed.

Lemma resolveFontRef_without_catalog_witness :
  let cached := {| userFontChoices := {[ "arial" := use_svg ]};
                   pendingFontResolve := false; pendingFontName := "" |} in
  resolveFontRef "Arial" [] [] cached = (Returned use_svg, cached)
  /\ fst (resolveFontRef "Arial" [] [] initialState) = AwaitingUser
  /\ pendingFontName (snd (resolveFontRef "Arial" [] [] initialState)) = "Arial"
  /\ fst (resolveFontRef "" [("arial", MkFontRef "a")] [] initialState) = AwaitingUser.
Proof.
  intros cached.
  split; [|split; [|split]].
  - rewrite (proj2 (resolveFontRef_without_catalog "Arial" [] [] cached
                      (or_intror eq_refl))).
    reflexivity.
  - rewrite (proj2 (resolveFontRef_without_catalog "Arial" [] [] initialState
                      (or_intror eq_refl))).
    reflexivity.
  - rewrite (proj2 (resolveFontRef_without_catalog "Arial" [] [] initialState
                      (or_intror eq_refl))).
    reflexivity.
  - rewrite (proj2 (resolveFontRef_without_catalog "" [("arial", MkFontRef "a")] []
                      initialState (or_introl eq_refl))).
    reflexivity.
Defined.

(** A resolution settled by anything but a throwing picker is repeated
    without a prompt and with the same choice: an automatic match is a
    function of the catalog, a cached choice stays cached, and both
    buttons write the choice under the lowercased family before they
    call the resolver. *)
Lemma resolve_again_same_choice (a : UserAction) (fontFamily : string)
  (rawC normC : JsMap.t FontRef) (st st1 : AppState) (c : FontChoice) (prompted : bool) :
  a <> ClickPickFont PickerThrows ->
  resolveWith a fontFamily rawC normC st = (Some c, prompted, st1) ->
  resolveFontRef fontFamily rawC normC st1 = (Returned c, st1).
Proof.
  intros Ha. unfold resolveWith, resolveFontRef.
  destruct (findCanvaFont fontFamily rawC normC) as [autoRef|].
  { intros [= <- _ <-]. reflexivity. }
  destruct (userFontChoices st !! toLowerCase fontFamily) as [cached|] eqn:Ec.
  { intros [= <- _ <-]. now rewrite Ec. }
  destruct a as [[[font|]| |]|]; cbn;
    try (intros [= <- _ <-]; cbn; now rewrite lookup_insert_eq).
  congruence.
Qed.

(** C8 fails when the picker throws.  The family is not in the catalog
    and not in the cache; the first resolution prompts, the picker
    throws, the resolver receives ["use_svg"] but nothing is cached; the
    second resolution prompts again and can end with another choice. *)
Theorem picker_error_choice_not_cached :
  let cat := preloadFonts [ {| font_name := "Gotham"; font_ref := MkFontRef "gotham-ref" |} ] in
  let picked := {| font_name := "Lato"; font_ref := MkFontRef "lato-ref" |} in
  let first := resolveWith (ClickPickFont PickerThrows) "Foo" (fst cat) (snd cat) initialState in
  let st1 := snd first in
  fst first = (Some use_svg, true)
  /\ userFontChoices st1 !! "foo" = None
  /\ resolveFontRef "Foo" (fst cat) (snd cat) st1 = (AwaitingUser, askUserForFont "Foo" st1)
  /\ fst (resolveWith (ClickPickFont (PickerCompleted (Some picked))) "Foo"
            (fst cat) (snd cat) st1)
     = (Some (FontRefChoice (MkFontRef "lato-ref")), true)
  /\ fst (resolveWith (ClickPickFont PickerAborted) "Foo" (fst cat) (snd cat) initialState)
     = (Some use_svg, true)
  /\ userFontChoices
       (snd (resolveWith (ClickPickFont PickerAborted) "Foo" (fst cat) (snd cat) initialState))
     !! "foo" = Some use_svg.
Proof. cbv zeta. repeat split; vm_compute; reflexivity. Qed.

(** ** Page creation with retries *)

(** The loop always ends by a created page or a rethrown error: the five
    iterations are enough. *)
Lemma createPageWithRetry_total (addPage : Z -> AddPageResult) :
  outcome (createPageWithRetry addPage) <> LoopExhausted.
Proof.
  unfold createPageWithRetry, BASE_DELAY. cbn [retryFrom Z.leb Z.compare Pos.compare Pos.compare_cont Z.add Pos.add Pos.succ Z.ltb Z.mul Pos.mul].
  repeat
    (match goal with
     | |- context [match addPage ?n with _ => _ end] =>
         destruct (addPage n) as [|?s]; [discriminate|]
     | |- context [isRateLimit ?s] => destruct (isRateLimit s)
     end; cbn [andb afterAttempt afterSleep outcome]; try discriminate).
Qed.

(** A failure that is not of the rate-limit class is rethrown by the
    iteration that meets it: no sleep, no further attempt. *)
Lemma retryFrom_other_error (fuel : nat) (addPage : Z -> AddPageResult)
  (att delay : Z) (s : string) :
  (att <= 5)%Z -> addPage att = PageError s -> isRateLimit s = false ->
  retryFrom (S fuel) addPage att delay
  = {| attempts := [att]; delays := []; outcome := Fatal s |}.
Proof.
  intros Hatt Herr Hrl. cbn [retryFrom].
  apply Z.leb_le in Hatt. rewrite Hatt, Herr, Hrl. reflexivity.
Qed.

(** C2, as stated, fails: five rate-limited attempts are separated by
    four sleeps; [16 * base] is never slept. *)
Lemma rate_limited_run_has_four_delays :
  let run := createPageWithRetry (fun _ => PageError "429 rate_limit") in
  attempts run = [1; 2; 3; 4; 5]
  /\ delays run = [3000; 6000; 12000; 24000]
  /\ delays run <> [BASE_DELAY; 2 * BASE_DELAY; 4 * BASE_DELAY; 8 * BASE_DELAY; 16 * BASE_DELAY]
  /\ outcome run = Fatal "429 rate_limit".
Proof. cbv zeta. repeat split; try (vm_compute; reflexivity). vm_compute. discriminate. Qed.

(** C2 (amended).  When every attempt fails with a rate-limit-class
    error, the loop makes exactly the attempts 1 to 5, sleeps exactly
    [base], [2 base], [4 base], [8 base] between them ([base = 3000])
    and then rethrows the fifth error; an error of another class is
    rethrown by the attempt that meets it, without a sleep or a further
    attempt. *)
Theorem createPageWithRetry_backoff (addPage : Z -> AddPageResult) :
  (forall att, exists s, addPage att = PageError s /\ isRateLimit s = true) ->
  (exists s5, addPage 5 = PageError s5
     /\ createPageWithRetry addPage
        = {| attempts := [1; 2; 3; 4; 5];
             delays := [BASE_DELAY; 2 * BASE_DELAY; 4 * BASE_DELAY; 8 * BASE_DELAY];
             outcome := Fatal s5 |})
  /\ BASE_DELAY = 3000
  /\ (forall (other : Z -> AddPageResult) (fuel : nat) (att delay : Z) (s : string),
        (att <= 5)%Z -> other att = PageError s -> isRateLimit s = false ->
        retryFrom (S fuel) other att delay
        = {| attempts := [att]; delays := []; outcome := Fatal s |}).
Proof.
  intros H. split; [|split; [reflexivity|]].
  - destruct (H 1) as (s1 & E1 & R1). destruct (H 2) as (s2 & E2 & R2).
    destruct (H 3) as (s3 & E3 & R3). destruct (H 4) as (s4 & E4 & R4).
    destruct (H 5) as (s5 & E5 & R5).
    exists s5. split; [exact E5|].
    unfold createPageWithRetry, BASE_DELAY. cbn [retryFrom].
    change (1 + 1) with 2. change (2 + 1) with 3.
    change (3 + 1) with 4. change (4 + 1) with 5.
    rewrite E1, E2, E3, E4, E5, R1, R2, R3, R4, R5. reflexivity.
  - intros other fuel att delay s. apply retryFrom_other_error.
Qed.

Lemma createPageWithRetry_backoff_witness :
  createPageWithRetry (fun _ => PageError "RATE_LIMITED")
  = {| attempts := [1; 2; 3; 4; 5]; delays := [3000; 6000; 12000; 24000];
       outcome := Fatal "RATE_LIMITED" |}
  /\ createPageWithRetry
       (fun att => if (att <? 3)%Z then PageError "rate_limit" else PageError "boom")
     = {| attempts := [1; 2; 3]; delays := [3000; 6000]; outcome := Fatal "boom" |}.
Proof.
  split; [|vm_compute; reflexivity].
  assert (H : forall att : Z, exists s,
             (fun _ : Z => PageError "RATE_LIMITED") att = PageError s
             /\ isRateLimit s = true).
  { intros att. exists "RATE_LIMITED". split; reflexivity. }
  destruct (createPageWithRetry_backoff _ H) as ((s5 & E5 & Hrun) & _ & _).
  injection E5 as <-. rewrite Hrun. reflexivity.
Defined.

(** ** Paint order *)

Section PaintOrder.

Let keyLe (a b : LayoutObject) : Prop := (paintKey a <= paintKey b)%Z.
Let hasKey (k : Z) (o : LayoutObject) : bool := (paintKey o =? k)%Z.

Lemma insertByKey_Permutation (o : LayoutObject) (l : list LayoutObject) :
  Permutation (insertByKey o l) (o :: l).
Proof.
  induction l as [|h t IH]; cbn [insertByKey]; [reflexivity|].
  destruct (paintKey o <=? paintKey h)%Z; [reflexivity|].
  rewrite IH. apply perm_swap.
Qed.

Lemma sortObjects_Permutation (l : list LayoutObject) :
  Permutation (sortObjects l) l.
Proof.
  induction l as [|h t IH]; [reflexivity|].
  cbn [sortObjects foldr]. rewrite insertByKey_Permutation.
  now apply Permutation_cons.
Qed.

Lemma insertByKey_sorted (o : LayoutObject) (l : list LayoutObject) :
  StronglySorted keyLe l -> StronglySorted keyLe (insertByKey o l).
Proof.
  induction l as [|h t IH]; intros Hs; cbn [insertByKey].
  - repeat constructor.
  - apply StronglySorted_inv in Hs as [Ht Hh].
    destruct (paintKey o <=? paintKey h)%Z eqn:E.
    + apply Z.leb_le in E. constructor; [now constructor|].
      constructor; [exact E|].
      eapply Forall_impl; [exact Hh|]. intros b Hb. unfold keyLe in *. cbn in *. lia.
    + apply Z.leb_gt in E. constructor; [now apply IH|].
      rewrite insertByKey_Permutation. constructor; [|exact Hh].
      unfold keyLe. lia.
Qed.

Lemma sortObjects_sorted (l : list LayoutObject) :
  StronglySorted keyLe (sortObjects l).
Proof.
  induction l as [|h t IH]; [constructor|].
  cbn [sortObjects foldr]. now apply insertByKey_sorted.
Qed.

Lemma insertByKey_filter (k : Z) (o : LayoutObject) (l : list LayoutObject) :
  List.filter (hasKey k) (insertByKey o l) = List.filter (hasKey k) (o :: l).
Proof.
  induction l as [|h t IH]; cbn [insertByKey]; [reflexivity|].
  destruct (paintKey o <=? paintKey h)%Z eqn:E; [reflexivity|].
  apply Z.leb_gt in E.
  cbn [List.filter] in *. rewrite IH. unfold hasKey.
  destruct (paintKey h =? k)%Z eqn:Eh; [|reflexivity].
  apply Z.eqb_eq in Eh.
  destruct (paintKey o =? k)%Z eqn:Eo; [|reflexivity].
  apply Z.eqb_eq in Eo. lia.
Qed.

(** Objects with equal keys keep their original relative order. *)
Lemma sortObjects_stable (k : Z) (l : list LayoutObject) :
  List.filter (hasKey k) (sortObjects l) = List.filter (hasKey k) l.
Proof.
  induction l as [|h t IH]; [reflexivity|].
  cbn [sortObjects foldr]. rewrite insertByKey_filter.
  cbn [List.filter]. fold (sortObjects t). now rewrite IH.
Qed.

(** The stable ascending order is unique: whatever algorithm the engine
    runs, a stable sort returns what [sortObjects] returns. *)
Lemma stable_sorted_unique (l1 l2 : list LayoutObject) :
  StronglySorted keyLe l1 -> StronglySorted keyLe l2 ->
  (forall k, List.filter (hasKey k) l1 = List.filter (hasKey k) l2) ->
  l1 = l2.
Proof.
  revert l2. induction l1 as [|a t1 IH]; intros l2 H1 H2 Hf.
  - destruct l2 as [|b t2]; [reflexivity|].
    specialize (Hf (paintKey b)). cbn in Hf. unfold hasKey in Hf.
    rewrite Z.eqb_refl in Hf. discriminate.
  - destruct l2 as [|b t2].
    { specialize (Hf (paintKey a)). cbn in Hf. unfold hasKey in Hf.
      rewrite Z.eqb_refl in Hf. discriminate. }
    apply StronglySorted_inv in H1 as [Ht1 Ha].
    apply StronglySorted_inv in H2 as [Ht2 Hb].
    assert (Hin : forall (x : LayoutObject) (l l' : list LayoutObject),
               List.filter (hasKey (paintKey x)) l = List.filter (hasKey (paintKey x)) l' ->
               In x l -> In x l').
    { intros x l l' E Hx.
      assert (Hx' : In x (List.filter (hasKey (paintKey x)) l)).
      { apply filter_In. split; [exact Hx|]. unfold hasKey. apply Z.eqb_refl. }
      rewrite E in Hx'. now apply filter_In in Hx'. }
    assert (Hab : (paintKey a <= paintKey b)%Z).
    { pose proof (Hin b (b :: t2) (a :: t1) (eq_sym (Hf _)) (or_introl eq_refl)) as [->|Hb'];
        [lia|].
      exact (proj1 (List.Forall_forall _ _) Ha b Hb'). }
    assert (Hba : (paintKey b <= paintKey a)%Z).
    { pose proof (Hin a (a :: t1) (b :: t2) (Hf _) (or_introl eq_refl)) as [->|Ha'];
        [lia|].
      exact (proj1 (List.Forall_forall _ _) Hb a Ha'). }
    assert (Hk : paintKey a = paintKey b) by lia.
    pose proof (Hf (paintKey a)) as Hhead. cbn in Hhead. unfold hasKey in Hhead.
    rewrite <- Hk, Z.eqb_refl in Hhead. injection Hhead as -> _.
    f_equal. apply IH; [assumption..|].
    intros k. specialize (Hf k). cbn in Hf.
    destruct (hasKey k b); [now injection Hf|exact Hf].
Qed.

(** C5.  The objects are compiled in [sortObjects] order: a permutation
    of the input, ascending in [zIndex ?? index], objects of equal key
    in their original order; three objects with zIndex 3, 1, 2 and
    index 0, 1, 2 are compiled in the order index 1, 2, 0. *)
Theorem sortObjects_paint_order (objs : list LayoutObject) :
  Permutation (sortObjects objs) objs
  /\ StronglySorted (fun a b => (paintKey a <= paintKey b)%Z) (sortObjects objs)
  /\ (forall k : Z,
        List.filter (fun o => (paintKey o =? k)%Z) (sortObjects objs)
        = List.filter (fun o => (paintKey o =? k)%Z) objs)
  /\ (forall o : LayoutObject,
        paintKey o = match zIndex o with Some z => z | None => index o end)
  /\ (forall imageRefs resolvedFonts (layout : Layout),
        objects layout = objs ->
        compileLayout imageRefs resolvedFonts layout
        = fold_left (compileObject imageRefs resolvedFonts) (sortObjects objs)
                    initialCompileState)
  /\ (forall a b c : LayoutObject,
        objs = [a; b; c] ->
        zIndex a = Some 3 -> zIndex b = Some 1 -> zIndex c = Some 2 ->
        index a = 0 -> index b = 1 -> index c = 2 ->
        sortObjects objs = [b; c; a] /\ index <$> sortObjects objs = [1; 2; 0]).
Proof.
  split; [apply sortObjects_Permutation|].
  split; [apply sortObjects_sorted|].
  split; [intros k; apply sortObjects_stable|].
  split; [reflexivity|].
  split; [intros ? ? layout <-; reflexivity|].
  intros a b c -> Ha Hb Hc Ia Ib Ic.
  assert (E : sortObjects [a; b; c] = [b; c; a]).
  { assert (Ka : paintKey a = 3) by (unfold paintKey; now rewrite Ha).
    assert (Kb : paintKey b = 1) by (unfold paintKey; now rewrite Hb).
    assert (Kc : paintKey c = 2) by (unfold paintKey; now rewrite Hc).
    unfold sortObjects.
    repeat (progress (rewrite ?Ka, ?Kb, ?Kc;
                      cbn [foldr insertByKey Z.leb Z.compare Pos.compare
                           Pos.compare_cont])).
    reflexivity. }
  split; [exact E|]. rewrite E. cbn. now rewrite Ia, Ib, Ic.
Qed.

End PaintOrder.

Lemma sortObjects_paint_order_witness :
  let a := sampleObject png 0 (Some 3) "a.png" None in
  let b := sampleObject svg 1 (Some 1) "b.svg" None in
  let c := sampleObject png 2 (Some 2) "c.png" None in
  index <$> sortObjects [a; b; c] = [1; 2; 0].
Proof.
  intros a b c.
  exact (proj2 (proj2 (proj2 (proj2 (proj2 (proj2
           (sortObjects_paint_order [a; b; c])))))
           a b c eq_refl eq_refl eq_refl eq_refl eq_refl eq_refl eq_refl)).
Defined.

(** ** Layout-to-scene compiler *)

Section Compiler.

Variable imageRefs : gmap string ImageRef.
Variable resolvedFonts : gmap string FontChoice.

Let step := compileObject imageRefs resolvedFonts.

Lemma recordOpacityAndAdvance_spec (obj : LayoutObject) (st : CompileState) :
  elements (recordOpacityAndAdvance obj st) = elements st
  /\ elementIdx (recordOpacityAndAdvance obj st) = S (elementIdx st)
  /\ opacityMap (recordOpacityAndAdvance obj st)
     = (opacityMap st ++ assignmentAt (elementIdx st) obj)%list.
Proof.
  unfold recordOpacityAndAdvance, assignmentAt. cbn.
  repeat split.
  destruct (opacity obj) as [op|]; [destruct (Qltb op 1)|];
    now rewrite ?app_nil_r.
Qed.

Lemma emits_push (e : SceneElement) (obj : LayoutObject) (st : CompileState) :
  emits e obj st (recordOpacityAndAdvance obj (push e st))
  /\ emits e obj st (recordOpacityAndAdvance obj (incrFrameCount (push e st)))
  /\ emits e obj st (recordOpacityAndAdvance obj (incrSvgCount (push e st))).
Proof.
  unfold emits. repeat split;
    first [apply recordOpacityAndAdvance_spec
          | destruct (recordOpacityAndAdvance_spec obj (push e st)) as (_ & _ & ->);
            reflexivity
          | destruct (recordOpacityAndAdvance_spec obj (incrFrameCount (push e st)))
              as (_ & _ & ->); reflexivity
          | destruct (recordOpacityAndAdvance_spec obj (incrSvgCount (push e st)))
              as (_ & _ & ->); reflexivity].
Qed.

Lemma compileObject_skip (st : CompileState) (obj : LayoutObject) :
  objectSkipped imageRefs obj = true -> step st obj = st.
Proof.
  unfold step, compileObject, objectSkipped.
  destruct (type obj), (textData obj) as [td|];
    repeat (match goal with
            | |- context [imageRefs !! ?k] => destruct (imageRefs !! k) eqn:?
            | |- context [truthyName (generateShapePath ?a ?b ?c)] =>
                destruct (truthyName (generateShapePath a b c)) eqn:?
            end; cbn);
    try discriminate; try reflexivity.
Qed.

Lemma compileObject_emit (st : CompileState) (obj : LayoutObject) :
  objectSkipped imageRefs obj = false ->
  exists e, emits e obj st (step st obj).
Proof.
  unfold step, compileObject, objectSkipped.
  destruct (type obj), (textData obj) as [td|];
    repeat (match goal with
            | |- context [imageRefs !! ?k] => destruct (imageRefs !! k) eqn:?
            | |- context [truthyName (generateShapePath ?a ?b ?c)] =>
                destruct (truthyName (generateShapePath a b c)) eqn:?
            | |- context [resolvedFonts !! ?k] =>
                destruct (resolvedFonts !! k) as [[?|]|] eqn:?
            | |- context [textSvgRef imageRefs ?o] =>
                destruct (textSvgRef imageRefs o) eqn:?
            end; cbn [negb bool_decide]);
    intros Hsk; try discriminate Hsk;
    try (eexists; apply emits_push).
Qed.

Lemma step_cases (st : CompileState) (obj : LayoutObject) :
  (objectSkipped imageRefs obj = true /\ step st obj = st)
  \/ (objectSkipped imageRefs obj = false /\ exists e, emits e obj st (step st obj)).
Proof.
  destruct (objectSkipped imageRefs obj) eqn:E.
  - left. split; [reflexivity|now apply compileObject_skip].
  - right. split; [reflexivity|now apply compileObject_emit].
Qed.

(** The sequence and the assignments only grow. *)
Lemma run_extends (objs : list LayoutObject) (st : CompileState) :
  exists es os,
    elements (fold_left step objs st) = (elements st ++ es)%list
    /\ opacityMap (fold_left step objs st) = (opacityMap st ++ os)%list.
Proof.
  revert st. induction objs as [|obj rest IH]; intros st; cbn [fold_left].
  - exists [], []. now rewrite !app_nil_r.
  - destruct (IH (step st obj)) as (es & os & He & Ho).
    destruct (step_cases st obj) as [[_ Hs]|[_ (e & He1 & _ & Ho1)]].
    + rewrite Hs in *. eauto.
    + rewrite He1 in He. rewrite Ho1 in Ho. rewrite <- !app_assoc in *. eauto.
Qed.

Lemma step_lockstep (st : CompileState) (obj : LayoutObject) :
  inLockstep st -> inLockstep (step st obj).
Proof.
  intros [Hidx Hall].
  destruct (step_cases st obj) as [[_ ->]|[_ (e & He & Hi & Ho)]]; [now split|].
  split.
  - rewrite Hi, He, length_app. cbn. lia.
  - rewrite Ho, He. apply Forall_app. split.
    + eapply Forall_impl; [exact Hall|]. intros a Ha. cbn beta in *.
      rewrite length_app. cbn. lia.
    + unfold assignmentAt. destruct (opacity obj) as [op|]; [|constructor].
      destruct (Qltb op 1); constructor; [|constructor].
      cbn. rewrite length_app. cbn. lia.
Qed.

Lemma run_lockstep (objs : list LayoutObject) (st : CompileState) :
  inLockstep st -> inLockstep (fold_left step objs st).
Proof.
  revert st. induction objs as [|obj rest IH]; intros st H; cbn [fold_left];
    [exact H|].
  apply IH. now apply step_lockstep.
Qed.

Lemma initial_lockstep : inLockstep initialCompileState.
Proof. split; [reflexivity|constructor]. Qed.

(** C3.  In every run, at every object: the counter equals the length
    of the sequence built so far; a skipped object (missing content or
    asset reference) changes nothing; any other object appends exactly
    one top-level element (a frame with its stroke is one group),
    increments the counter once and records, when its opacity is defined
    and below 1, one assignment whose index is the counter before the
    increment, which is the position the element has in the final
    sequence. *)
Theorem opacity_index_lockstep (pre post : list LayoutObject) (obj : LayoutObject) :
  let before := fold_left (compileObject imageRefs resolvedFonts) pre
                          initialCompileState in
  let after := compileObject imageRefs resolvedFonts before obj in
  let final := fold_left (compileObject imageRefs resolvedFonts)
                         (pre ++ obj :: post) initialCompileState in
  elementIdx before = length (elements before)
  /\ elementIdx final = length (elements final)
  /\ Forall (fun a => (elementIndex a < length (elements final))%nat) (opacityMap final)
  /\ (objectSkipped imageRefs obj = true -> after = before)
  /\ (objectSkipped imageRefs obj = false ->
      exists e,
        elements after = (elements before ++ [e])%list
        /\ elementIdx after = S (elementIdx before)
        /\ opacityMap after
           = (opacityMap before ++ assignmentAt (elementIdx before) obj)%list
        /\ elements final !! elementIdx before = Some e
        /\ exists later, opacityMap final = (opacityMap after ++ later)%list)
  /\ (forall layout : Layout,
        sortObjects (objects layout) = (pre ++ obj :: post)%list ->
        compileLayout imageRefs resolvedFonts layout = final).
Proof.
  intros before after final.
  pose proof (run_lockstep pre _ initial_lockstep) as [Hb _].
  pose proof (run_lockstep (pre ++ obj :: post) _ initial_lockstep) as [Hf Hall].
  assert (Efinal : final = fold_left step post after).
  { unfold final, after, before, step. now rewrite fold_left_app. }
  destruct (run_extends post after) as (es & os & Hes & Hos).
  rewrite <- Efinal in Hes, Hos.
  pose proof (compileObject_skip before obj) as Hskip.
  pose proof (compileObject_emit before obj) as Hemit.
  unfold step in Hb, Hf, Hall, Hskip, Hemit.
  change (fold_left (compileObject imageRefs resolvedFonts) pre initialCompileState)
    with before in Hb, Hskip, Hemit.
  change (compileObject imageRefs resolvedFonts before obj) with after in Hskip, Hemit.
  change (fold_left (compileObject imageRefs resolvedFonts) (pre ++ obj :: post)
            initialCompileState) with final in Hf, Hall.
  split; [exact Hb|]. split; [exact Hf|]. split; [exact Hall|].
  split; [exact Hskip|].
  split.
  - intros Hns. destruct (Hemit Hns) as (e & He & Hi & Ho).
    exists e. repeat (split; [assumption|]).
    split; [|now exists os].
    rewrite Hes, He, Hb, <- app_assoc.
    rewrite lookup_app_r by lia. now rewrite Nat.sub_diag.
  - intros layout Hs. unfold compileLayout. now rewrite Hs.
Qed.



End Compiler.



(** The mask with stroke art compiles to one group at the stroke box,
    holding the stroke image over the whole box and the frame offset by
    the difference of the two origins. *)
Example mask_with_stroke_is_one_group :
  match elements (compileObject sampleRefs ∅ initialCompileState sampleMask) with
  | [Group [Image i; Shape f] gtop gleft gwidth gheight] =>
      (gtop, gleft, gwidth, gheight) = (-10, -10, 220, 220)%Q
      /\ (img_top i, img_left i, img_width i, img_height i) = (0, 0, 220, 220)%Q
      /\ (shp_top f, shp_left f, shp_width f, shp_height f) = (10, 10, 200, 200)%Q
      /\ shp_fill_dropTarget f = true
  | _ => False
  end.
Proof. vm_compute. repeat split; reflexivity. Qed.

(** A run over a text, the mask and an image without upload, painted in
    the order image, text, mask: the image is skipped, the text takes
    position 0 and the group position 1, and the two assignments carry
    these positions. *)
Example run_with_skip_and_opacity :
  let layout := {| artboardName := "A1"; layoutWidth := 800; layoutHeight := 600;
                   objects := [ sampleText None; sampleMask;
                                sampleObject png 2 (Some (-1)) "missing.png" (Some (1 # 4)) ] |} in
  let final := compileLayout sampleRefs ∅ layout in
  index <$> sortObjects (objects layout) = [2; 0; 1]
  /\ length (elements final) = 2%nat
  /\ elementIdx final = 2%nat
  /\ opacityMap final
     = [ {| elementIndex := 0; assignedOpacity := 1 # 2 |};
         {| elementIndex := 1; assignedOpacity := 3 # 10 |} ].
Proof. cbv zeta. repeat split; vm_compute; reflexivity. Qed.

(** The weight table in use: tokens are lowercased before the lookup,
    ["black"] maps to ["heavy"], an unknown token to ["normal"]. *)
Example mappedWeight_samples :
  (FONT_WEIGHT_MAP !! toLowerCase "Black", FONT_WEIGHT_MAP !! toLowerCase "BOLD",
   FONT_WEIGHT_MAP !! toLowerCase "Fancy", TEXT_ALIGN_MAP !! "right")
  = (Some "heavy", Some "bold", None, Some "end").
Proof. vm_compute. reflexivity. Qed.

(* ================================================================== *)
(** * Further properties of the code *)
(* ================================================================== *)

(** ** Rounding to two decimals *)









(** ** The contract of the synthesized path *)

Lemma endsWith_app (a b suffix : string) :
  endsWith b suffix = true -> endsWith (a ++ b) suffix = true.
Proof.
  intros H. induction a as [|c a IH]; [exact H|].
  change (String.eqb (String c (a ++ b)) suffix || endsWith (a ++ b) suffix = true)%bool.
  rewrite IH. apply orb_true_r.
Qed.

Lemma join_render_ends_with_Z (toks : list PathToken) (t : PathToken) :
  last (t :: toks) = Some (Cmd "Z") -> toks <> [] ->
  endsWith (join " " (render <$> t :: toks)) " Z" = true.
Proof.
  revert t. induction toks as [|t' rest IH]; intros t Hlast Hne; [congruence|].
  change (join " " (render <$> t :: t' :: rest))
    with (render t ++ " " ++ join " " (render <$> t' :: rest))%string.
  destruct rest as [|t'' rest'].
  - cbn in Hlast. injection Hlast as ->. apply endsWith_app. reflexivity.
  - apply endsWith_app, endsWith_app. apply IH; [exact Hlast|discriminate].
Qed.

Lemma prefix_move (rest : string) :
  String.prefix "M " (String "M" (String " " rest)) = true.
Proof. destruct rest; reflexivity. Qed.

Lemma plainRectPath_counts (w h : Q) :
  count_char "M" (plainRectPath w h) = 1%nat
  /\ count_char "Z" (plainRectPath w h) = 1%nat
  /\ count_char "L" (plainRectPath w h) = 3%nat
  /\ count_char "C" (plainRectPath w h) = 0%nat.
Proof.
  unfold plainRectPath.
  repeat split; rewrite !count_char_app, !count_char_toString by reflexivity;
    reflexivity.
Qed.

(** X2.  [generateShapePath] answers [null] exactly for an absent shape
    and for the [unknown] discriminator.  Every path it returns is
    non-empty (so the test [if (pathD)] of the caller never fails on
    it), starts with the single move command, ends with the single
    close command, and has four curves and no line for an ellipse,
    three lines and no curve or four lines and four curves for a
    rectangle, whatever the size. *)
Theorem generateShapePath_contract (cs : option ClipShape) (w h : Q) :
  (generateShapePath cs w h = None
   <-> cs = None \/ exists s, cs = Some s /\ clipType s = unknown)
  /\ (forall d, generateShapePath cs w h = Some d ->
        truthyName (Some d) = Some d
        /\ String.prefix "M " d = true
        /\ endsWith d " Z" = true
        /\ count_char "M" d = 1%nat /\ count_char "Z" d = 1%nat
        /\ (forall s, cs = Some s -> clipType s = ellipse ->
              count_char "C" d = 4%nat /\ count_char "L" d = 0%nat)
        /\ (forall s, cs = Some s -> clipType s = rect ->
              (count_char "L" d = 3%nat /\ count_char "C" d = 0%nat)
              \/ (count_char "L" d = 4%nat /\ count_char "C" d = 4%nat))).
Proof.
  split.
  - unfold generateShapePath. destruct cs as [s|]; [|tauto].
    destruct (clipType s) eqn:E.
    + split; [discriminate|]. intros [?|(s' & [= <-] & ?)]; congruence.
    + split; [destruct (Qle_bool _ _); discriminate|].
      intros [?|(s' & [= <-] & ?)]; congruence.
    + split; [eauto|reflexivity].
  - intros d Hd. unfold generateShapePath in Hd.
    destruct cs as [s|]; [|discriminate].
    destruct (clipType s) eqn:E; [| |discriminate].
    + replace d with (join " " (render <$> ellipseTokens w h)) by congruence.
      clear Hd.
      split; [reflexivity|]. split; [apply prefix_move|].
      split; [now apply join_render_ends_with_Z|].
      rewrite !count_char_join_render by reflexivity.
      split; [reflexivity|]. split; [reflexivity|]. split.
      * intros _ _ _. split; reflexivity.
      * intros s' [= <-] E'. congruence.
    + destruct (Qle_bool (radiusOrZero s) 0).
      * replace d with (plainRectPath w h) by congruence. clear Hd.
        destruct (plainRectPath_counts w h) as (HM & HZ & HL & HC).
        split; [reflexivity|]. split; [apply prefix_move|].
        split; [unfold plainRectPath; repeat apply endsWith_app; reflexivity|].
        split; [exact HM|]. split; [exact HZ|]. split.
        -- intros s' [= <-] E'. congruence.
        -- intros _ _ _. left. now split.
      * replace d with (join " " (render <$> roundedRectTokens w h
                                    (effectiveRadius (radiusOrZero s) w h)))
          by congruence.
        clear Hd.
        split; [reflexivity|]. split; [apply prefix_move|].
        split; [now apply join_render_ends_with_Z|].
        rewrite !count_char_join_render by reflexivity.
        split; [reflexivity|]. split; [reflexivity|]. split.
        -- intros s' [= <-] E'. congruence.
        -- intros _ _ _. right. split; reflexivity.
Qed.

Lemma generateShapePath_contract_witness :
  endsWith "M 0 0 L 30 0 L 30 20 L 0 20 Z" " Z" = true
  /\ count_char "L" "M 0 0 L 30 0 L 30 20 L 0 20 Z" = 3%nat.
Proof.
  pose proof (proj2 (generateShapePath_contract
                       (Some {| clipType := rect; cornerRadius := None |}) 30 20)
                    "M 0 0 L 30 0 L 30 20 L 0 20 Z" eq_refl)
    as (_ & _ & Hend & _ & _ & _ & Hrect).
  split; [exact Hend|].
  destruct (Hrect _ eq_refl eq_refl) as [[HL _]|[HL _]]; [exact HL|].
  vm_compute in HL. discriminate HL.
Defined.

(** ** The path stays inside the view box *)




(** ** Normal forms of font names *)









(** ** Matching ignores case *)




(** ** The catalog built by [preloadFonts] *)

Section JsMapFacts.

Context {V : Type}.

Lemma JsMap_get_set_eq (m : JsMap.t V) (k : string) (v : V) :
  JsMap.get (JsMap.set m k v) k = Some v.
Proof.
  unfold JsMap.get. induction m as [|[k' v'] rest IH]; cbn.
  - now rewrite String.eqb_refl.
  - destruct (String.eqb k' k) eqn:E; cbn.
    + now rewrite String.eqb_refl.
    + rewrite E. exact IH.
Qed.

Lemma JsMap_get_set_ne (m : JsMap.t V) (k k' : string) (v : V) :
  k <> k' -> JsMap.get (JsMap.set m k v) k' = JsMap.get m k'.
Proof.
  intros Hne. unfold JsMap.get. induction m as [|[k0 v0] rest IH]; cbn.
  - apply String.eqb_neq in Hne. now rewrite Hne.
  - destruct (String.eqb k0 k) eqn:E; cbn.
    + apply String.eqb_eq in E. subst k0.
      apply String.eqb_neq in Hne. now rewrite Hne.
    + destruct (String.eqb k0 k'); [reflexivity|exact IH].
Qed.

Lemma JsMap_has_get (m : JsMap.t V) (k : string) :
  JsMap.has m k = true <-> is_Some (JsMap.get m k).
Proof.
  unfold JsMap.has. destruct (JsMap.get m k); split; eauto; try discriminate.
  intros [? [=]].
Qed.

Lemma JsMap_has_set (m : JsMap.t V) (k k' : string) (v : V) :
  JsMap.has (JsMap.set m k v) k' = (String.eqb k k' || JsMap.has m k')%bool.
Proof.
  unfold JsMap.has. destruct (String.eqb k k') eqn:E.
  - apply String.eqb_eq in E. subst. now rewrite JsMap_get_set_eq.
  - apply String.eqb_neq in E. now rewrite JsMap_get_set_ne.
Qed.

Lemma JsMap_get_In (m : JsMap.t V) (k : string) (v : V) :
  JsMap.get m k = Some v -> In (k, v) m.
Proof.
  unfold JsMap.get. induction m as [|[k' v'] rest IH]; cbn; [discriminate|].
  destruct (String.eqb k' k) eqn:E; cbn.
  - apply String.eqb_eq in E. intros [= <-]. left. now subst.
  - intros H. right. now apply IH.
Qed.

Lemma JsMap_In_set (m : JsMap.t V) (k k' : string) (v v' : V) :
  In (k', v') (JsMap.set m k v) -> (k', v') = (k, v) \/ In (k', v') m.
Proof.
  induction m as [|[k0 v0] rest IH]; cbn.
  - intros [H|[]]. now left.
  - destruct (String.eqb k0 k); cbn.
    + intros [H|H]; [now left|right; now right].
    + intros [H|H]; [right; now left|].
      destruct (IH H) as [?|?]; [now left|right; now right].
Qed.

Lemma JsMap_size_set (m : JsMap.t V) (k : string) (v : V) :
  JsMap.size (JsMap.set m k v) <> 0%nat.
Proof. destruct m as [|[k' v'] rest]; cbn; [discriminate|]. destruct (String.eqb k' k); discriminate. Qed.

End JsMapFacts.

Lemma preloadFonts_snoc (fonts : list Font) (g : Font) :
  preloadFonts (fonts ++ [g]) = preloadFont (preloadFonts fonts) g.
Proof. unfold preloadFonts. now rewrite fold_left_app. Qed.

Lemma preloadFont_raw (acc : JsMap.t FontRef * JsMap.t FontRef) (g : Font) :
  fst (preloadFont acc g) = JsMap.set (fst acc) (toLowerCase (font_name g)) (font_ref g).
Proof. unfold preloadFont. now destruct (_ && _)%bool. Qed.

Lemma preloadFont_norm_has (acc : JsMap.t FontRef * JsMap.t FontRef) (g : Font) (k : string) :
  JsMap.has (snd (preloadFont acc g)) k = true <->
  k = norm (font_name g)
  \/ (k = stripStyle (font_name g) /\ truthy k = true)
  \/ JsMap.has (snd acc) k = true.
Proof.
  unfold preloadFont.
  destruct (truthy (stripStyle (font_name g))
            && negb (JsMap.has (JsMap.set (snd acc) (norm (font_name g)) (font_ref g))
                               (stripStyle (font_name g))))%bool eqn:E; cbn [snd].
  - rewrite !JsMap_has_set, !orb_true_iff, !String.eqb_eq.
    apply andb_prop in E as [E1 _]. split.
    + intros [<-|[<-|H]]; auto.
    + intros [->|[[-> _]|H]]; auto.
  - rewrite JsMap_has_set, orb_true_iff, String.eqb_eq. split.
    + intros [<-|H]; auto.
    + intros [->|[[-> Ht]|H]]; auto.
      rewrite Ht in E. cbn in E. apply negb_false_iff in E.
      rewrite JsMap_has_set, orb_true_iff, String.eqb_eq in E. exact E.
Qed.

Lemma preloadFonts_raw_has (fonts : list Font) (g : Font) :
  In g fonts -> JsMap.has (fst (preloadFonts fonts)) (toLowerCase (font_name g)) = true.
Proof.
  induction fonts as [|h fonts IH] using rev_ind; [intros []|].
  rewrite preloadFonts_snoc, preloadFont_raw, JsMap_has_set, orb_true_iff, String.eqb_eq.
  intros Hin. apply in_app_or in Hin as [Hin|[->|[]]]; auto.
Qed.

Lemma preloadFonts_norm_has (fonts : list Font) (g : Font) :
  In g fonts -> JsMap.has (snd (preloadFonts fonts)) (norm (font_name g)) = true.
Proof.
  induction fonts as [|h fonts IH] using rev_ind; [intros []|].
  rewrite preloadFonts_snoc, preloadFont_norm_has.
  intros Hin. apply in_app_or in Hin as [Hin|[->|[]]]; auto.
Qed.

Lemma preloadFonts_size (fonts : list Font) :
  fonts <> [] -> JsMap.size (fst (preloadFonts fonts)) <> 0%nat.
Proof.
  destruct fonts as [|h fonts] using rev_ind; [congruence|]. intros _.
  rewrite preloadFonts_snoc, preloadFont_raw. apply JsMap_size_set.
Qed.

Lemma preloadFonts_raw_get (fonts : list Font) (g : Font) :
  In g fonts ->
  (forall h, In h fonts ->
     toLowerCase (font_name h) = toLowerCase (font_name g) -> font_ref h = font_ref g) ->
  JsMap.get (fst (preloadFonts fonts)) (toLowerCase (font_name g)) = Some (font_ref g).
Proof.
  induction fonts as [|h fonts IH] using rev_ind; [intros []|].
  intros Hin Huniq. rewrite preloadFonts_snoc, preloadFont_raw.
  destruct (String.eqb (toLowerCase (font_name h)) (toLowerCase (font_name g))) eqn:E.
  - apply String.eqb_eq in E. rewrite E, JsMap_get_set_eq. f_equal.
    apply Huniq; [apply in_or_app; right; now left|exact E].
  - apply String.eqb_neq in E. rewrite JsMap_get_set_ne by exact E.
    apply IH.
    + apply in_app_or in Hin as [Hin|[Heq|[]]]; [exact Hin|].
      subst h. now destruct E.
    + intros h' Hh'. apply Huniq, in_or_app. now left.
Qed.

(** X6.  A font of the catalog is always matched under its own name
    when that name is not empty, so it never leads to a prompt; and
    when the name carries no leading or trailing blank and the fonts of
    equal lower-case name share their reference, the match is the
    font's own reference, by the exact tier. *)
Theorem catalog_font_matches_itself (fonts : list Font) (g : Font) :
  In g fonts -> font_name g <> "" ->
  let cat := preloadFonts fonts in
  is_Some (findCanvaFont (font_name g) (fst cat) (snd cat))
  /\ (trim (toLowerCase (font_name g)) = toLowerCase (font_name g) ->
      (forall h, In h fonts ->
         toLowerCase (font_name h) = toLowerCase (font_name g) ->
         font_ref h = font_ref g) ->
      findCanvaFont (font_name g) (fst cat) (snd cat) = Some (font_ref g)).
Proof.
  intros Hin Hne cat.
  assert (Ht : truthy (font_name g) = true)
    by (destruct (font_name g) eqn:En; [congruence|reflexivity]).
  assert (Hsz : (JsMap.size (fst cat) =? 0)%nat = false).
  { apply Nat.eqb_neq, preloadFonts_size. intros ->. destruct Hin. }
  pose proof (preloadFonts_norm_has fonts g Hin) as Hnorm.
  unfold findCanvaFont. fold cat in Hnorm. rewrite Ht, Hsz. cbn [negb orb].
  split.
  - destruct (JsMap.has (fst cat) _) eqn:E; [now apply JsMap_has_get|].
    rewrite Hnorm. now apply JsMap_has_get.
  - intros Htrim Huniq. rewrite Htrim.
    unfold cat. rewrite (preloadFonts_raw_has fonts g Hin).
    now apply preloadFonts_raw_get.
Qed.

Lemma catalog_font_matches_itself_witness :
  let fonts := [ {| font_name := "Lato Bold"; font_ref := MkFontRef "lb" |};
                 {| font_name := " Inter "; font_ref := MkFontRef "in" |} ] in
  findCanvaFont "Lato Bold" (fst (preloadFonts fonts)) (snd (preloadFonts fonts))
  = Some (MkFontRef "lb")
  /\ is_Some (findCanvaFont " Inter " (fst (preloadFonts fonts)) (snd (preloadFonts fonts))).
Proof.
  intros fonts. split.
  - refine (proj2 (catalog_font_matches_itself fonts
                     {| font_name := "Lato Bold"; font_ref := MkFontRef "lb" |}
                     (or_introl eq_refl) ltac:(discriminate)) eq_refl _).
    intros h [<-|[<-|[]]]; [reflexivity|]. vm_compute. discriminate.
  - exact (proj1 (catalog_font_matches_itself fonts
                    {| font_name := " Inter "; font_ref := MkFontRef "in" |}
                    (or_intror (or_introl eq_refl)) ltac:(discriminate))).
Defined.

Lemma findCanvaFont_value (f : string) (rawC normC : JsMap.t FontRef) (r : FontRef) :
  findCanvaFont f rawC normC = Some r ->
  (exists k, In (k, r) rawC) \/ (exists k, In (k, r) normC).
Proof.
  unfold findCanvaFont.
  destruct (negb (truthy f) || (JsMap.size rawC =? 0)%nat)%bool; [discriminate|].
  cbv zeta.
  destruct (JsMap.has rawC _); [intros H; left; eauto using JsMap_get_In|].
  destruct (JsMap.has normC (norm f)); [intros H; right; eauto using JsMap_get_In|].
  destruct (_ && _ && _)%bool; [intros H; right; eauto using JsMap_get_In|].
  destruct (tier4 (norm f) rawC) as [r4|] eqn:E4.
  - intros [= <-]. left. destruct (tier4_some _ _ _ E4) as (k & Hin & _). eauto.
  - destruct (_ && _)%bool; [|discriminate].
    intros E5. left. destruct (tier5_some _ _ _ E5) as (k & Hin & _). eauto.
Qed.

Lemma preloadFonts_values (fonts : list Font) (k : string) (r : FontRef) :
  In (k, r) (fst (preloadFonts fonts)) \/ In (k, r) (snd (preloadFonts fonts)) ->
  exists g, In g fonts /\ font_ref g = r.
Proof.
  induction fonts as [|h fonts IH] using rev_ind; [intros [[]|[]]|].
  rewrite preloadFonts_snoc.
  assert (Hh : In h (fonts ++ [h])) by (apply in_or_app; right; now left).
  assert (Hold : (exists g, In g fonts /\ font_ref g = r) ->
                 exists g, In g (fonts ++ [h]) /\ font_ref g = r).
  { intros (g & Hg & Er). exists g. split; [apply in_or_app; now left|exact Er]. }
  intros [H|H].
  - rewrite preloadFont_raw in H.
    apply JsMap_In_set in H as [[= _ ->]|H]; eauto.
  - unfold preloadFont in H. destruct (_ && _)%bool; cbn [snd] in H.
    + apply JsMap_In_set in H as [[= _ ->]|H]; eauto.
      apply JsMap_In_set in H as [[= _ ->]|H]; eauto.
    + apply JsMap_In_set in H as [[= _ ->]|H]; eauto.
Qed.

(** X7.  [findCanvaFont] only answers with references of the catalog:
    whatever tier matches, the reference returned is that of one of the
    fonts [preloadFonts] was given. *)
Theorem findCanvaFont_returns_catalog_refs (fonts : list Font) (f : string) (r : FontRef) :
  findCanvaFont f (fst (preloadFonts fonts)) (snd (preloadFonts fonts)) = Some r ->
  exists g, In g fonts /\ font_ref g = r.
Proof.
  intros H. apply findCanvaFont_value in H as [(k & H)|(k & H)];
    eapply preloadFonts_values; eauto.
Qed.

Lemma findCanvaFont_returns_catalog_refs_witness :
  exists g, In g [ {| font_name := "Gotham"; font_ref := MkFontRef "gotham-ref" |} ]
            /\ font_ref g = MkFontRef "gotham-ref".
Proof.
  exact (findCanvaFont_returns_catalog_refs
           [ {| font_name := "Gotham"; font_ref := MkFontRef "gotham-ref" |} ]
           "Gotham Rounded" (MkFontRef "gotham-ref") eq_refl).
Defined.

(** ** The dialog and the cache of choices *)

Lemma click_pending (a : UserAction) (st : AppState) :
  pendingFontResolve st = true ->
  exists c,
    click a st
    = (Some c,
       clearPending
         (if throwingPick a then userFontChoices st
          else <[toLowerCase (pendingFontName st) := c]> (userFontChoices st)))
    /\ (c <> use_svg ->
        exists font, a = ClickPickFont (PickerCompleted (Some font))
                     /\ c = FontRefChoice (font_ref font)).
Proof.
  intros Hp.
  destruct a as [[[font|]| |]|]; unfold click, handlePickFont, handleUseSvg;
    rewrite Hp; cbn [negb throwingPick];
    eexists; (split; [reflexivity|]); intros Hc; try congruence.
  exists font. now split.
Qed.

(** X8.  A click on a dialog button does nothing when no prompt is
    pending.  With a pending prompt it always hands a choice to the
    resolver and closes the prompt, also when the picker throws; it
    leaves the choices cached for every other family as they are; and a
    font reference can only come from a completed pick. *)
Theorem click_settles_only_the_pending_font (a : UserAction) (st : AppState) :
  (pendingFontResolve st = false -> click a st = (None, st))
  /\ (pendingFontResolve st = true ->
      exists c,
        fst (click a st) = Some c
        /\ pendingFontResolve (snd (click a st)) = false
        /\ pendingFontName (snd (click a st)) = ""
        /\ (forall k, k <> toLowerCase (pendingFontName st) ->
              userFontChoices (snd (click a st)) !! k = userFontChoices st !! k)
        /\ (a <> ClickPickFont PickerThrows ->
            userFontChoices (snd (click a st)) !! toLowerCase (pendingFontName st)
            = Some c)
        /\ (c <> use_svg ->
            exists font, a = ClickPickFont (PickerCompleted (Some font))
                         /\ c = FontRefChoice (font_ref font))).
Proof.
  split.
  - intros Hp. destruct a as [result|]; cbn; unfold handlePickFont, handleUseSvg;
      now rewrite Hp.
  - intros Hp. destruct (click_pending a st Hp) as (c & -> & Hfont).
    exists c. cbn [fst snd clearPending pendingFontResolve pendingFontName userFontChoices].
    repeat split; try assumption.
    + intros k Hk. destruct (throwingPick a); [reflexivity|].
      now apply lookup_insert_ne.
    + intros Ha. destruct a as [[[font|]| |]|]; cbn [throwingPick];
        first [apply lookup_insert_eq | congruence].
Qed.

Lemma click_settles_only_the_pending_font_witness :
  let st := askUserForFont "Foo"
              {| userFontChoices := {[ "bar" := use_svg ]};
                 pendingFontResolve := false; pendingFontName := "" |} in
  let picked := {| font_name := "Lato"; font_ref := MkFontRef "lato" |} in
  click ClickUseSvg initialState = (None, initialState)
  /\ userFontChoices (snd (click (ClickPickFont (PickerCompleted (Some picked))) st)) !! "bar"
     = Some use_svg
  /\ userFontChoices (snd (click (ClickPickFont (PickerCompleted (Some picked))) st)) !! "foo"
     = Some (FontRefChoice (MkFontRef "lato")).
Proof.
  intros st picked.
  split; [exact (proj1 (click_settles_only_the_pending_font ClickUseSvg initialState) eq_refl)|].
  destruct (proj2 (click_settles_only_the_pending_font
                     (ClickPickFont (PickerCompleted (Some picked))) st) eq_refl)
    as (c & Hc & _ & _ & Hother & Hsame & _).
  split.
  - etransitivity; [apply (Hother "bar"); discriminate|reflexivity].
  - injection Hc as <-. exact (Hsame ltac:(discriminate)).
Defined.



(** ** Resolving the fonts of an artboard *)

Lemma resolveFontRef_cases (f : string) (rawC normC : JsMap.t FontRef) (st : AppState) :
  (exists c, resolveFontRef f rawC normC st = (Returned c, st)
             /\ (is_Some (findCanvaFont f rawC normC)
                 \/ is_Some (userFontChoices st !! toLowerCase f)))
  \/ (resolveFontRef f rawC normC st = (AwaitingUser, askUserForFont f st)
      /\ findCanvaFont f rawC normC = None
      /\ userFontChoices st !! toLowerCase f = None).
Proof.
  unfold resolveFontRef.
  destruct (findCanvaFont f rawC normC) as [r|]; [left; eauto|].
  destruct (userFontChoices st !! toLowerCase f) as [c|]; [left; eauto|].
  right. auto.
Qed.

Lemma resolveFonts_resolved_all (families : list string) (rawC normC : JsMap.t FontRef) :
  forall (clicks : list UserAction) (st : AppState) (resolved res : gmap string FontChoice)
         (st' : AppState) (unused : list UserAction),
    resolveFonts families rawC normC clicks st resolved = FontsResolved res st' unused ->
    (forall f, f ∈ families -> is_Some (res !! f))
    /\ (forall f, f ∉ families -> res !! f = resolved !! f)
    /\ (forall f, is_Some (resolved !! f) -> is_Some (res !! f)).
Proof.
  induction families as [|f rest IH]; intros clicks st resolved res st' unused Hrun.
  - cbn in Hrun. injection Hrun as <- _ _.
    split; [|split]; [intros f Hf; inversion Hf|auto|auto].
  - cbn [resolveFonts] in Hrun.
    assert (Hstep : forall c clicks1 st1,
               resolveFonts rest rawC normC clicks1 st1 (<[f := c]> resolved)
               = FontsResolved res st' unused ->
               (forall g, g ∈ f :: rest -> is_Some (res !! g))
               /\ (forall g, g ∉ f :: rest -> res !! g = resolved !! g)
               /\ (forall g, is_Some (resolved !! g) -> is_Some (res !! g))).
    { intros c clicks1 st1 H. destruct (IH _ _ _ _ _ _ H) as (Hin & Hout & Hkeep).
      assert (Hf : is_Some (res !! f)) by (apply Hkeep; rewrite lookup_insert_eq; eauto).
      split; [|split].
      - intros g Hg. apply elem_of_cons in Hg as [->|Hg]; auto.
      - intros g Hg. apply not_elem_of_cons in Hg as [Hne Hg].
        rewrite Hout by exact Hg. now apply lookup_insert_ne.
      - intros g Hg. destruct (decide (g = f)) as [->|Hne]; [exact Hf|].
        apply Hkeep. now rewrite lookup_insert_ne. }
    destruct (resolveFontRef f rawC normC st) as [[c|] st0]; [eauto|].
    destruct clicks as [|a clicks']; [discriminate|].
    destruct (click a st0) as [[c|] st1]; [eauto|discriminate].
Qed.

(** X10.  Given at least one click per family, the loop over the
    families of an artboard never stays suspended: it ends with a choice
    recorded for every family and no prompt left open, touches no other
    entry of the map, and uses at most one click per family; when every
    family has an automatic match or a cached choice it uses no click
    and leaves the state as it was. *)
Theorem resolveFonts_covers_every_family (families : list string)
  (rawC normC : JsMap.t FontRef) (clicks : list UserAction) (st : AppState)
  (resolved : gmap string FontChoice) :
  (length families <= length clicks)%nat ->
  exists res st' unused,
    resolveFonts families rawC normC clicks st resolved = FontsResolved res st' unused
    /\ (forall f, f ∈ families -> is_Some (res !! f))
    /\ (forall f, f ∉ families -> res !! f = resolved !! f)
    /\ (length clicks - length families <= length unused <= length clicks)%nat
    /\ (pendingFontResolve st = false -> pendingFontResolve st' = false)
    /\ ((forall f, f ∈ families ->
           is_Some (findCanvaFont f rawC normC)
           \/ is_Some (userFontChoices st !! toLowerCase f)) ->
        unused = clicks /\ st' = st).
Proof.
  intros Hlen.
  assert (Hrun : exists res st' unused,
             resolveFonts families rawC normC clicks st resolved
             = FontsResolved res st' unused
             /\ (length clicks - length families <= length unused <= length clicks)%nat
             /\ (pendingFontResolve st = false -> pendingFontResolve st' = false)
             /\ ((forall f, f ∈ families ->
                    is_Some (findCanvaFont f rawC normC)
                    \/ is_Some (userFontChoices st !! toLowerCase f)) ->
                 unused = clicks /\ st' = st)).
  { revert clicks st resolved Hlen.
    induction families as [|f rest IH]; intros clicks st resolved Hlen.
    - exists resolved, st, clicks. cbn. repeat split; auto; lia.
    - cbn [resolveFonts].
      destruct (resolveFontRef_cases f rawC normC st)
        as [(c & -> & _)|(-> & Hnone & Hmiss)].
      + destruct (IH clicks st (<[f := c]> resolved)) as (res & st' & unused & H & Hn & Hp & Hq);
          [cbn in Hlen; lia|].
        exists res, st', unused. split; [exact H|]. split; [cbn; lia|].
        split; [exact Hp|]. intros Hall. apply Hq. intros g Hg. apply Hall. now right.
      + destruct clicks as [|a clicks']; [cbn in Hlen; lia|].
        destruct (click_pending a (askUserForFont f st) eq_refl) as (c & -> & _).
        match goal with
        | |- context [resolveFonts rest rawC normC clicks' ?s ?m] =>
            destruct (IH clicks' s m) as (res & st' & unused & H & Hn & Hp & _);
              [cbn in Hlen; lia|]
        end.
        exists res, st', unused. split; [exact H|]. split; [cbn in *; lia|].
        split; [intros _; now apply Hp|].
        intros Hall. destruct (Hall f) as [[r Hr]|[r Hr]]; [now left|congruence..]. }
  destruct Hrun as (res & st' & unused & H & Hn & Hp & Hq).
  destruct (resolveFonts_resolved_all _ _ _ _ _ _ _ _ _ H) as (Hin & Hout & _).
  exists res, st', unused. auto 10.
Qed.

Lemma resolveFonts_covers_every_family_witness :
  let cat := preloadFonts [ {| font_name := "Gotham"; font_ref := MkFontRef "g" |} ] in
  exists st' unused,
    resolveFonts ["Gotham"; "Foo"; "FOO"] (fst cat) (snd cat)
                 [ClickUseSvg; ClickUseSvg; ClickUseSvg] initialState ∅
    = FontsResolved {[ "Gotham" := FontRefChoice (MkFontRef "g");
                       "Foo" := use_svg; "FOO" := use_svg ]} st' unused
    /\ length unused = 2%nat.
Proof.
  intros cat.
  destruct (resolveFonts_covers_every_family ["Gotham"; "Foo"; "FOO"] (fst cat) (snd cat)
              [ClickUseSvg; ClickUseSvg; ClickUseSvg] initialState ∅
              ltac:(cbn; lia))
    as (res & st' & unused & Hrun & _).
  vm_compute in Hrun. injection Hrun as <- <- <-.
  eexists _, _. split; vm_compute; reflexivity.
Defined.

Lemma elem_of_setAdd (s : list string) (a b : string) :
  a ∈ setAdd s b <-> a ∈ s \/ a = b.
Proof.
  unfold setAdd. case_bool_decide as Hb.
  - split; [auto|]. intros [H| ->]; assumption.
  - rewrite elem_of_app, list_elem_of_singleton. reflexivity.
Qed.

Lemma NoDup_setAdd (s : list string) (b : string) : NoDup s -> NoDup (setAdd s b).
Proof.
  intros Hs. unfold setAdd. case_bool_decide as Hb; [exact Hs|].
  apply NoDup_app. split; [exact Hs|]. split; [|apply NoDup_singleton].
  intros a Ha Hab. apply list_elem_of_singleton in Hab. now subst.
Qed.

Lemma uniqueFonts_acc (sorted : list LayoutObject) :
  forall acc : list string,
    (NoDup acc -> NoDup (fold_left addFontOf sorted acc))
    /\ (forall f, f ∈ acc -> f ∈ fold_left addFontOf sorted acc)
    /\ ((forall f, f ∈ acc -> f <> "") ->
        forall f, f ∈ fold_left addFontOf sorted acc -> f <> "")
    /\ (forall obj td, In obj sorted -> type obj = text -> textData obj = Some td ->
          fontFamily td <> "" -> fontFamily td ∈ fold_left addFontOf sorted acc).
Proof.
  induction sorted as [|o rest IH]; intros acc; cbn [fold_left].
  - repeat split; auto. intros obj td [].
  - destruct (IH (addFontOf acc o)) as (Hnd & Hmono & Hne & Hin).
    assert (Hadd : forall f, f ∈ acc -> f ∈ addFontOf acc o).
    { intros f Hf. unfold addFontOf.
      destruct (type o), (textData o) as [td|]; try exact Hf.
      destruct (truthy (fontFamily td)); [|exact Hf].
      apply elem_of_setAdd. now left. }
    split; [|split; [|split]].
    + intros Hacc. apply Hnd. unfold addFontOf.
      destruct (type o), (textData o) as [td|]; try exact Hacc.
      destruct (truthy (fontFamily td)); [|exact Hacc]. now apply NoDup_setAdd.
    + auto.
    + intros Hacc. apply Hne. intros f. unfold addFontOf.
      destruct (type o), (textData o) as [td|]; try apply Hacc.
      destruct (truthy (fontFamily td)) eqn:Et; [|apply Hacc].
      intros Hf. apply elem_of_setAdd in Hf as [Hf| ->]; [now apply Hacc|].
      intros E. rewrite E in Et. discriminate.
    + intros obj td [<-|Hobj] Hty Htd Hfam; [|eauto].
      apply Hmono. unfold addFontOf. rewrite Hty, Htd.
      destruct (fontFamily td) eqn:E; [congruence|]. cbn [truthy].
      apply elem_of_setAdd. now right.
Qed.

(** X11.  The families collected for an artboard are distinct and not
    empty, and hold the family of every text object that names one.
    Once the loop over them has ended, such a text object has a recorded
    choice; so the compiler gives it an element without a font only
    when that choice is the SVG one and no text SVG was uploaded for
    it. *)
Theorem every_named_text_font_is_resolved (sorted : list LayoutObject)
  (rawC normC : JsMap.t FontRef) (clicks unused : list UserAction) (st st' : AppState)
  (res : gmap string FontChoice) (obj : LayoutObject) (td : TextData) :
  resolveFonts (uniqueFonts sorted) rawC normC clicks st ∅ = FontsResolved res st' unused ->
  In obj sorted -> type obj = text -> textData obj = Some td -> fontFamily td <> "" ->
  NoDup (uniqueFonts sorted)
  /\ (forall f, f ∈ uniqueFonts sorted -> f <> "")
  /\ fontFamily td ∈ uniqueFonts sorted
  /\ is_Some (res !! fontFamily td)
  /\ (forall (imageRefs : gmap string ImageRef) (cst : CompileState),
        elements (compileObject imageRefs res cst obj)
        = (elements cst ++ [Text (bestEffortText obj td)])%list ->
        res !! fontFamily td = Some use_svg /\ textSvgRef imageRefs obj = None).
Proof.
  intros Hrun Hobj Hty Htd Hfam.
  destruct (uniqueFonts_acc sorted []) as (Hnd & _ & Hne & Hin).
  fold (uniqueFonts sorted) in Hnd, Hne, Hin.
  assert (Hmem : fontFamily td ∈ uniqueFonts sorted) by eauto.
  destruct (resolveFonts_resolved_all _ _ _ _ _ _ _ _ _ Hrun) as (Hall & _ & _).
  pose proof (Hall _ Hmem) as [c Hc].
  split; [apply Hnd, NoDup_nil_2|].
  split; [apply Hne; intros f Hf; inversion Hf|].
  split; [exact Hmem|]. split; [eauto|].
  intros imageRefs cst. unfold compileObject. rewrite Hty, Htd, Hc.
  destruct c as [r|].
  - cbn. intros H. apply app_inv_head in H. discriminate H.
  - destruct (textSvgRef imageRefs obj) as [iref|]; [|auto].
    cbn. intros H. apply app_inv_head in H. discriminate H.
Qed.

Lemma every_named_text_font_is_resolved_witness :
  uniqueFonts [sampleText None; sampleText (Some "t.svg")] = ["Lato"]
  /\ is_Some (({[ "Lato" := use_svg ]} : gmap string FontChoice) !! "Lato").
Proof.
  split; [reflexivity|].
  assert (Hrun : resolveFonts (uniqueFonts [sampleText None; sampleText (Some "t.svg")])
                   [] [] [ClickUseSvg] initialState ∅
                 = FontsResolved {[ "Lato" := use_svg ]}
                     (clearPending {[ "lato" := use_svg ]}) [])
    by reflexivity.
  exact (proj1 (proj2 (proj2 (proj2
           (every_named_text_font_is_resolved _ _ _ _ _ _ _ _ (sampleText None)
              sampleTextData Hrun (or_introl eq_refl) eq_refl eq_refl
              ltac:(discriminate)))))).
Defined.

(** ** Uploads *)

Section Uploads.

Variable lookup : string -> option File.
Variable upload : Mime -> File -> option ImageRef.

Lemma uploadOne_refs (run : UploadRun) (n f : string) :
  uploadedRefs (uploadOne lookup upload run n) !! f
  = if decide (f = n)
    then match uploadAttempt lookup upload n with
         | Some r => Some r
         | None => uploadedRefs run !! f
         end
    else uploadedRefs run !! f.
Proof.
  unfold uploadOne, uploadAttempt.
  destruct (truthy n); cbn [negb]; [|now destruct (decide (f = n))].
  destruct (lookup n) as [file|]; cbn; [|now destruct (decide (f = n))].
  destruct (uploadFile upload file) as [r|]; cbn.
  - destruct (decide (f = n)) as [->|Hne];
      [apply lookup_insert_eq|now apply lookup_insert_ne].
  - now destruct (decide (f = n)).
Qed.

Lemma uploadOne_calls (run : UploadRun) (n : string) :
  uploadCalls (uploadOne lookup upload run n)
  = (uploadCalls run ++ omap lookup (List.filter truthy [n]))%list
  /\ uploadWaited (uploadOne lookup upload run n)
     = uploadWaited run
       + 500 * Z.of_nat (length (omap lookup (List.filter truthy [n]))).
Proof.
  unfold uploadOne. cbn [List.filter].
  destruct (truthy n); cbn [negb omap list_omap]; [|rewrite app_nil_r; split; [reflexivity|cbn; lia]].
  destruct (lookup n) as [file|]; [|rewrite app_nil_r; split; [reflexivity|cbn; lia]].
  destruct (uploadFile upload file); cbn; split; reflexivity || lia.
Qed.

Lemma uploads_fold (names : list string) :
  forall run0 : UploadRun,
    NoDup names ->
    let run := fold_left (uploadOne lookup upload) names run0 in
    (forall f, f ∉ names -> uploadedRefs run !! f = uploadedRefs run0 !! f)
    /\ (forall f, f ∈ names ->
          uploadedRefs run !! f
          = match uploadAttempt lookup upload f with
            | Some r => Some r
            | None => uploadedRefs run0 !! f
            end)
    /\ uploadCalls run = (uploadCalls run0 ++ omap lookup (List.filter truthy names))%list
    /\ uploadWaited run
       = uploadWaited run0 + 500 * Z.of_nat (length (omap lookup (List.filter truthy names))).
Proof.
  induction names as [|n rest IH]; intros run0 Hnd; cbn [fold_left].
  - cbn. rewrite app_nil_r. repeat split; [|lia]. intros f Hf. inversion Hf.
  - apply NoDup_cons in Hnd as [Hn Hrest].
    destruct (IH (uploadOne lookup upload run0 n) Hrest) as (Hout & Hin & Hcalls & Hwait).
    destruct (uploadOne_calls run0 n) as [Hc1 Hw1].
    split; [|split; [|split]].
    + intros f Hf. apply not_elem_of_cons in Hf as [Hne Hf].
      rewrite Hout by exact Hf. rewrite uploadOne_refs.
      now destruct (decide (f = n)).
    + intros f Hf. apply elem_of_cons in Hf as [->|Hf].
      * rewrite Hout by exact Hn. rewrite uploadOne_refs.
        now destruct (decide (n = n)).
      * rewrite Hin by exact Hf. rewrite uploadOne_refs.
        destruct (decide (f = n)) as [->|Hne]; [contradiction|reflexivity].
    + rewrite Hcalls, Hc1, <- app_assoc. f_equal.
      change (n :: rest) with ([n] ++ rest)%list.
      now rewrite List.filter_app, omap_app.
    + rewrite Hwait, Hw1.
      change (n :: rest) with ([n] ++ rest)%list.
      rewrite List.filter_app, omap_app, length_app. lia.
Qed.

Lemma uploads_outside (names : list string) (f : string) :
  forall run0 : UploadRun,
    f ∉ names ->
    uploadedRefs (fold_left (uploadOne lookup upload) names run0) !! f
    = uploadedRefs run0 !! f.
Proof.
  induction names as [|n rest IH]; intros run0 Hf; [reflexivity|].
  apply not_elem_of_cons in Hf as [Hne Hf]. cbn [fold_left].
  rewrite IH by exact Hf. rewrite uploadOne_refs. now destruct (decide (f = n)).
Qed.

Lemma length_upload_calls (names : list string) :
  (length (omap lookup (List.filter truthy names)) <= length names)%nat.
Proof.
  induction names as [|n rest IH]; [reflexivity|].
  cbn [List.filter]. destruct (truthy n); cbn [omap list_omap length]; [|lia].
  destruct (lookup n); cbn [length]; lia.
Qed.

(** X12.  Over a list of distinct names, the upload loop stores a
    reference under a name exactly when the name is in the list, is not
    empty, has a file, and the upload of that file succeeded; it sends
    the files of the non-empty names that have one, once each and in
    list order, and sleeps 500 ms per file sent, none for a name it
    skips. *)
Theorem uploads_store_the_found_files (names : list string) :
  NoDup names ->
  let run := fold_left (uploadOne lookup upload) names noUploads in
  (forall f r,
     uploadedRefs run !! f = Some r
     <-> f ∈ names /\ f <> ""
         /\ exists file, lookup f = Some file /\ uploadFile upload file = Some r)
  /\ uploadCalls run = omap lookup (List.filter truthy names)
  /\ (length (uploadCalls run) <= length names)%nat
  /\ uploadWaited run = 500 * Z.of_nat (length (uploadCalls run)).
Proof.
  intros Hnd run.
  destruct (uploads_fold names noUploads Hnd) as (Hout & Hin & Hcalls & Hwait).
  fold run in Hout, Hin, Hcalls, Hwait. cbn in Hcalls, Hwait.
  split; [|split; [exact Hcalls|split]].
  - intros f r. destruct (decide (f ∈ names)) as [Hf|Hf].
    + rewrite (Hin f Hf). unfold uploadAttempt. cbn [noUploads uploadedRefs].
      rewrite lookup_empty.
      destruct f as [|c f']; cbn [truthy].
      * split; [discriminate|]. intros (_ & Hne & _). congruence.
      * destruct (lookup (String c f')) as [file|]; cbn.
        -- destruct (uploadFile upload file) as [r'|] eqn:Eu.
           ++ split; [intros [= <-]; repeat split; eauto; discriminate|].
              intros (_ & _ & file' & [= <-] & Hr). congruence.
           ++ split; [discriminate|].
              intros (_ & _ & file' & [= <-] & Hr). congruence.
        -- split; [discriminate|]. intros (_ & _ & file' & [=] & _).
    + rewrite (Hout f Hf). cbn. rewrite lookup_empty.
      split; [discriminate|]. intros (Hf' & _). contradiction.
  - rewrite Hcalls. apply length_upload_calls.
  - rewrite Hwait, Hcalls. lia.
Qed.

End Uploads.

Lemma addObjectFiles_spec (acc : list string) (obj : LayoutObject) :
  (NoDup acc -> NoDup (addObjectFiles acc obj))
  /\ (forall f, f ∈ addObjectFiles acc obj <-> f ∈ acc \/ referencesFile obj f).
Proof.
  unfold addObjectFiles, referencesFile. split.
  - intros Hacc.
    destruct (type obj), (truthyName (textSvgFileName obj)),
      (truthyName (contentFileName obj)), (truthyName (strokeFileName obj));
      repeat apply NoDup_setAdd; exact Hacc.
  - intros f.
    destruct (type obj), (truthyName (textSvgFileName obj)) as [t|],
      (truthyName (contentFileName obj)) as [c|],
      (truthyName (strokeFileName obj)) as [s|];
      rewrite ?elem_of_setAdd; split; intros H;
      repeat match goal with
             | H : _ \/ _ |- _ => destruct H
             | H : _ /\ _ |- _ => destruct H
             | H : Some _ = Some _ |- _ => injection H as H
             end;
      subst; try discriminate; auto 10.
Qed.

Lemma filesToUpload_acc (sorted : list LayoutObject) :
  forall acc,
    (NoDup acc -> NoDup (fold_left addObjectFiles sorted acc))
    /\ (forall f, f ∈ fold_left addObjectFiles sorted acc
                  <-> f ∈ acc \/ exists obj, In obj sorted /\ referencesFile obj f).
Proof.
  induction sorted as [|o rest IH]; intros acc; cbn [fold_left].
  - split; [auto|]. intros f. split; [auto|]. intros [H|(obj & [] & _)]. exact H.
  - destruct (IH (addObjectFiles acc o)) as [Hnd Hmem].
    destruct (addObjectFiles_spec acc o) as [Hnd1 Hmem1].
    split; [auto|]. intros f. rewrite Hmem, Hmem1. split.
    + intros [[H|H]|(obj & Hin & Hr)]; [now left|right..].
      * exists o. split; [now left|exact H].
      * exists obj. split; [now right|exact Hr].
    + intros [H|(obj & [<-|Hin] & Hr)]; [left; now left|left; now right|].
      right. eauto.
Qed.

Lemma filesToUpload_mem (sorted : list LayoutObject) (f : string) :
  f ∈ filesToUpload sorted <-> exists obj, In obj sorted /\ referencesFile obj f.
Proof.
  unfold filesToUpload. rewrite (proj2 (filesToUpload_acc sorted [])).
  split; [|auto]. intros [Hf|Hf]; [inversion Hf|exact Hf].
Qed.

(** X13.  The names queued for upload are distinct and are exactly the
    names some object refers to: the file of an image or of a mask, a
    text SVG, and the content and stroke files of a mask; the file name
    of a text object is not among them. *)
Theorem filesToUpload_are_the_referenced_files (sorted : list LayoutObject) :
  NoDup (filesToUpload sorted)
  /\ (forall f, f ∈ filesToUpload sorted
                <-> exists obj, In obj sorted /\ referencesFile obj f)
  /\ (forall f, f ∈ filesToUpload sorted ->
        exists obj, In obj sorted
                    /\ (type obj = text -> truthyName (textSvgFileName obj) = Some f)).
Proof.
  split; [apply (proj1 (filesToUpload_acc sorted [])), NoDup_nil_2|].
  split; [apply filesToUpload_mem|].
  intros f Hf. apply filesToUpload_mem in Hf as (obj & Hin & Hr).
  exists obj. split; [exact Hin|].
  intros Hty. unfold referencesFile in Hr. rewrite Hty in Hr.
  destruct Hr as [[[?|[?|?]] _]|[Hr|[? _]]]; congruence.
Qed.

(** X14.  A text object without [textData] whose file name no object
    makes the importer upload is never on the page: whatever files were
    selected and whatever the uploads answered, the compiler skips it. *)
Theorem unreferenced_text_is_dropped (sorted : list LayoutObject) (obj : LayoutObject)
  (files : JsMap.t File) (artboardFileMap : JsMap.t (JsMap.t string)) (abName : string)
  (upload : Mime -> File -> option ImageRef)
  (resolvedFonts : gmap string FontChoice) (st : CompileState) :
  type obj = text -> textData obj = None ->
  (forall o, In o sorted -> ~ referencesFile o (fileName obj)) ->
  let refs := uploadedRefs (uploadAll files artboardFileMap abName upload
                                      (filesToUpload sorted)) in
  refs !! fileName obj = None
  /\ compileObject refs resolvedFonts st obj = st.
Proof.
  intros Hty Htd Hno refs.
  assert (Hnone : refs !! fileName obj = None).
  { unfold refs, uploadAll. rewrite uploads_outside; [reflexivity|].
    intros Hin. apply filesToUpload_mem in Hin as (o & Ho & Hr).
    now destruct (Hno o Ho). }
  split; [exact Hnone|].
  unfold compileObject. now rewrite Hty, Htd, Hnone.
Qed.

Lemma unreferenced_text_is_dropped_witness :
  let obj := sampleObject text 0 None "t0.svg" (Some (1 # 2)) in
  let files := fst (indexFiles [ {| file_name := "t0.svg";
                                    webkitRelativePath := "exp/A1/t0.svg" |} ]) in
  let abm := snd (indexFiles [ {| file_name := "t0.svg";
                                  webkitRelativePath := "exp/A1/t0.svg" |} ]) in
  compileObject
    (uploadedRefs (uploadAll files abm "A1" (fun _ _ => Some (MkImageRef "r"))
                             (filesToUpload [obj; sampleText None])))
    ∅ initialCompileState obj
  = initialCompileState.
Proof.
  intros obj files abm.
  refine (proj2 (unreferenced_text_is_dropped [obj; sampleText None] obj files abm "A1"
                   (fun _ _ => Some (MkImageRef "r")) ∅ initialCompileState
                   eq_refl eq_refl _)).
  intros o [<-|[<-|[]]] Hr; unfold referencesFile in Hr; cbn in Hr;
    repeat match goal with
           | H : _ \/ _ |- _ => destruct H
           | H : _ /\ _ |- _ => destruct H
           end; discriminate.
Defined.

Lemma uploads_store_the_found_files_witness :
  let lookup := fun f : string =>
                  if String.eqb f "a.png"
                  then Some {| file_name := "a.png"; webkitRelativePath := "exp/A1/a.png" |}
                  else None in
  let run := fold_left (uploadOne lookup (fun _ _ => Some (MkImageRef "ra")))
                       ["a.png"; ""; "gone.png"] noUploads in
  uploadedRefs run !! "a.png" = Some (MkImageRef "ra")
  /\ uploadedRefs run !! "gone.png" = None
  /\ uploadWaited run = 500.
Proof.
  intros lookup run.
  assert (Hnd : NoDup ["a.png"; ""; "gone.png"])
    by (apply (bool_decide_unpack (NoDup ["a.png"; ""; "gone.png"]));
        vm_compute; exact I).
  destruct (uploads_store_the_found_files lookup (fun _ _ => Some (MkImageRef "ra"))
              ["a.png"; ""; "gone.png"] Hnd)
    as (Hrefs & _ & _ & Hwait).
  split; [|split].
  - apply Hrefs. split; [now left|]. split; [discriminate|].
    eexists. split; reflexivity.
  - destruct (uploadedRefs run !! "gone.png") as [r|] eqn:E; [|reflexivity].
    apply Hrefs in E as (_ & _ & file & Hl & _). discriminate Hl.
  - exact Hwait.
Defined.

(** ** The file index *)

Lemma split_not_nil (sep : ascii) (s : string) : split sep s <> [].
Proof.
  destruct s as [|c t]; cbn [split]; [discriminate|].
  destruct (Ascii.eqb c sep); [discriminate|].
  destruct (split sep t); discriminate.
Qed.

Lemma split_single (sep : ascii) (s x : string) : split sep s = [x] -> x = s.
Proof.
  revert x. induction s as [|c t IH]; intros x; cbn [split]; [now intros [= <-]|].
  destruct (Ascii.eqb c sep).
  - intros [= _ H]. now destruct (split_not_nil sep t).
  - destruct (split sep t) as [|h r] eqn:E; [now destruct (split_not_nil sep t)|].
    intros [= <- ->]. f_equal. now apply IH.
Qed.

Lemma endsWith_cons (c : ascii) (s suffix : string) :
  endsWith s suffix = true -> endsWith (String c s) suffix = true.
Proof. intros H. cbn [endsWith]. rewrite H. apply orb_true_r. Qed.

Lemma endsWith_last_part (s : string) :
  (2 <= length (split "/" s))%nat ->
  endsWith s ("/" ++ lastPart (split "/" s)) = true.
Proof.
  unfold lastPart. induction s as [|c t IH]; cbn [split]; [cbn; lia|].
  destruct (Ascii.eqb c "/") eqn:Ec.
  - apply Ascii.eqb_eq in Ec. subst c. intros _.
    destruct (split "/" t) as [|h r] eqn:E; [now destruct (split_not_nil "/" t)|].
    destruct r as [|h' r'].
    + apply split_single in E. subst h. cbn [List.last endsWith].
      change ("/" ++ t)%string with (String "/" t).
      now rewrite String.eqb_refl.
    + change (List.last ("" :: h :: h' :: r') "") with (List.last (h :: h' :: r') "").
      apply endsWith_cons, IH. cbn. lia.
  - destruct (split "/" t) as [|h r] eqn:E; [now destruct (split_not_nil "/" t)|].
    destruct r as [|h' r']; [cbn; lia|]. intros _.
    change (List.last (String c h :: h' :: r') "") with (List.last (h :: h' :: r') "").
    apply endsWith_cons, IH. cbn. lia.
Qed.

Lemma split_two_truthy (s : string) :
  (2 <= length (split "/" s))%nat -> truthy s = true.
Proof. destruct s; [cbn; lia|reflexivity]. Qed.

Lemma truthyName_Some (o : option string) (s : string) :
  truthyName o = Some s <-> o = Some s /\ truthy s = true.
Proof.
  unfold truthyName. destruct o as [x|]; [|split; [discriminate|intros [[=] _]]].
  destruct (truthy x) eqn:E; split.
  - intros [= <-]. auto.
  - intros [[= <-] _]. reflexivity.
  - discriminate.
  - intros [[= <-] H]. congruence.
Qed.

Lemma indexUnder_get (abm : JsMap.t (JsMap.t string)) (dir base rp d : string) :
  JsMap.get (indexUnder abm dir base rp) d
  = if String.eqb dir d
    then Some (JsMap.set (default [] (JsMap.get abm dir)) base rp)
    else JsMap.get abm d.
Proof.
  unfold indexUnder, JsMap.has.
  destruct (JsMap.get abm dir) as [m0|] eqn:E; cbn [default].
  - rewrite E. destruct (String.eqb dir d) eqn:Ed.
    + apply String.eqb_eq in Ed. subst d. apply JsMap_get_set_eq.
    + apply String.eqb_neq in Ed. now apply JsMap_get_set_ne.
  - rewrite JsMap_get_set_eq. destruct (String.eqb dir d) eqn:Ed.
    + apply String.eqb_eq in Ed. subst d. apply JsMap_get_set_eq.
    + apply String.eqb_neq in Ed. now rewrite !JsMap_get_set_ne.
Qed.

Lemma indexUnder_In (abm : JsMap.t (JsMap.t string)) (dir base rp d : string)
  (m : JsMap.t string) :
  In (d, m) (indexUnder abm dir base rp) ->
  In (d, m) abm \/ m = []
  \/ (d = dir /\ exists m0, m = JsMap.set m0 base rp /\ (m0 = [] \/ In (dir, m0) abm)).
Proof.
  unfold indexUnder, JsMap.has.
  destruct (JsMap.get abm dir) as [m0|] eqn:E.
  - rewrite E. intros H. apply JsMap_In_set in H as [[= -> ->]|H]; [|now left].
    right. right. split; [reflexivity|]. exists m0. split; [reflexivity|].
    right. now apply JsMap_get_In.
  - rewrite JsMap_get_set_eq. intros H.
    apply JsMap_In_set in H as [[= -> ->]|H].
    + right. right. split; [reflexivity|]. exists []. auto.
    + apply JsMap_In_set in H as [[= -> ->]|H]; auto.
Qed.

Lemma indexFiles_snoc (l : list File) (f : File) :
  indexFiles (l ++ [f]) = indexFile (indexFiles l) f.
Proof. unfold indexFiles. now rewrite fold_left_app. Qed.

Lemma indexUnder_sound (l : list File) (f : File)
  (idx : JsMap.t File * JsMap.t (JsMap.t string)) (dir : string) :
  indexSound l idx ->
  (2 <= length (split "/" (relativePath f)))%nat ->
  (dir <> "__root__" -> nth 1 (split "/" (relativePath f)) "" = dir) ->
  indexSound (l ++ [f])
    (JsMap.set (fst idx) (relativePath f) f,
     indexUnder (snd idx) dir (lastPart (split "/" (relativePath f))) (relativePath f)).
Proof.
  intros [HA HB] Hlen Hdir. split; cbn [fst snd].
  - intros rp file H. apply JsMap_In_set in H as [[= -> ->]|H].
    + split; [apply in_or_app; right; now left|reflexivity].
    + destruct (HA _ _ H) as [Hin Hrp]. split; [apply in_or_app; now left|exact Hrp].
  - assert (Hold : forall d m base rp, In (d, m) (snd idx) -> In (base, rp) m ->
               endsWith rp ("/" ++ base) = true /\ truthy rp = true
               /\ JsMap.has (JsMap.set (fst idx) (relativePath f) f) rp = true
               /\ (d <> "__root__" -> nth 1 (split "/" rp) "" = d)).
    { intros d m base rp Hd Hb. destruct (HB _ _ _ _ Hd Hb) as (H1 & H2 & H3 & H4).
      repeat split; try assumption. rewrite JsMap_has_set, H3. apply orb_true_r. }
    intros d m base rp Hd Hb.
    apply indexUnder_In in Hd as [Hd|[->|(-> & m0 & -> & Hm0)]]; [eauto|destruct Hb|].
    apply JsMap_In_set in Hb as [[= -> ->]|Hb].
    + split; [now apply endsWith_last_part|].
      split; [now apply split_two_truthy|].
      split; [|exact Hdir].
      rewrite JsMap_has_set, String.eqb_refl. reflexivity.
    + destruct Hm0 as [->|Hm0]; [destruct Hb|eauto].
Qed.

Lemma indexFiles_sound (l : list File) : indexSound l (indexFiles l).
Proof.
  induction l as [|f l IH] using rev_ind.
  - split; cbn; intros; contradiction.
  - rewrite indexFiles_snoc. unfold indexFile.
    destruct (3 <=? length (split "/" (relativePath f)))%nat eqn:E3.
    + apply Nat.leb_le in E3. apply indexUnder_sound; [exact IH|lia|auto].
    + destruct (length (split "/" (relativePath f)) =? 2)%nat eqn:E2.
      * apply Nat.eqb_eq in E2. apply indexUnder_sound; [exact IH|lia|congruence].
      * destruct IH as [HA HB]. split; cbn [fst snd].
        -- intros rp file H. apply JsMap_In_set in H as [[= -> ->]|H].
           ++ split; [apply in_or_app; right; now left|reflexivity].
           ++ destruct (HA _ _ H) as [Hin Hrp].
              split; [apply in_or_app; now left|exact Hrp].
        -- intros d m base rp Hd Hb. destruct (HB _ _ _ _ Hd Hb) as (H1 & H2 & H3 & H4).
           repeat split; try assumption. rewrite JsMap_has_set, H3. apply orb_true_r.
Qed.

Lemma firstPath_Some (abm : JsMap.t (JsMap.t string)) (name fp : string) :
  firstPath abm name = Some fp ->
  exists d m, In (d, m) abm /\ pathIn m name = Some fp.
Proof.
  induction abm as [|[d m] rest IH]; cbn [firstPath]; [discriminate|].
  destruct (pathIn m name) as [fp'|] eqn:E.
  - intros [= <-]. exists d, m. split; [now left|exact E].
  - intros H. destruct (IH H) as (d' & m' & Hin & Hp). exists d', m'.
    split; [now right|exact Hp].
Qed.

Lemma firstPath_is_Some (abm : JsMap.t (JsMap.t string)) (name : string)
  (d : string) (m : JsMap.t string) :
  In (d, m) abm -> is_Some (pathIn m name) -> is_Some (firstPath abm name).
Proof.
  induction abm as [|[d' m'] rest IH]; cbn [firstPath]; [intros []|].
  intros [[= -> ->]|Hin] Hp.
  - destruct Hp as [fp ->]. eauto.
  - destruct (pathIn m' name); [eauto|]. now apply IH.
Qed.

Lemma pathIn_In (m : JsMap.t string) (name fp : string) :
  pathIn m name = Some fp -> In (name, fp) m.
Proof.
  unfold pathIn. intros H. apply truthyName_Some in H as [H _].
  now apply JsMap_get_In.
Qed.

(** X15.  Over the index built from the selected files, [getFile] only
    answers with one of the selected files, and only with a file whose
    relative path ends with a slash and the name asked for; it never
    hands out a file of another name. *)
Theorem getFile_returns_a_file_of_that_name (fileList : list File)
  (abName fileName : string) (file : File) :
  getFile (fst (indexFiles fileList)) (snd (indexFiles fileList)) abName fileName
  = Some file ->
  In file fileList
  /\ endsWith (relativePath file) ("/" ++ fileName) = true.
Proof.
  destruct (indexFiles_sound fileList) as [HA HB].
  set (files := fst (indexFiles fileList)) in *.
  set (abm := snd (indexFiles fileList)) in *.
  assert (Hpath : forall d m fp,
             In (d, m) abm -> pathIn m fileName = Some fp ->
             JsMap.get files fp = Some file ->
             In file fileList /\ endsWith (relativePath file) ("/" ++ fileName) = true).
  { intros d m fp Hd Hp Hg. apply pathIn_In in Hp.
    destruct (HB _ _ _ _ Hd Hp) as (He & _).
    apply JsMap_get_In in Hg. destruct (HA _ _ Hg) as [Hin ->]. auto. }
  unfold getFile.
  destruct (JsMap.get abm abName) as [af|] eqn:Eab.
  - destruct (pathIn af fileName) as [fp|] eqn:Ep.
    { apply JsMap_get_In in Eab. eauto. }
    destruct (firstPath abm fileName) as [fp|] eqn:Ef.
    { apply firstPath_Some in Ef as (d & m & Hd & Hp). eauto. }
    destruct (List.find _ files) as [[p f]|] eqn:Efind; [|discriminate].
    intros [= <-]. apply find_some in Efind as [Hin He]. cbn in He.
    destruct (HA _ _ Hin) as [Hf ->]. auto.
  - destruct (firstPath abm fileName) as [fp|] eqn:Ef.
    { apply firstPath_Some in Ef as (d & m & Hd & Hp). eauto. }
    destruct (List.find _ files) as [[p f]|] eqn:Efind; [|discriminate].
    intros [= <-]. apply find_some in Efind as [Hin He]. cbn in He.
    destruct (HA _ _ Hin) as [Hf ->]. auto.
Qed.

Lemma getFile_returns_a_file_of_that_name_witness :
  let a := {| file_name := "bg.png"; webkitRelativePath := "exp/A1/bg.png" |} in
  let b := {| file_name := "bg.png"; webkitRelativePath := "exp/A2/bg.png" |} in
  getFile (fst (indexFiles [a; b])) (snd (indexFiles [a; b])) "A2" "bg.png" = Some b
  /\ endsWith (relativePath b) "/bg.png" = true.
Proof.
  intros a b.
  assert (H : getFile (fst (indexFiles [a; b])) (snd (indexFiles [a; b])) "A2" "bg.png"
              = Some b) by reflexivity.
  split; [exact H|].
  exact (proj2 (getFile_returns_a_file_of_that_name [a; b] "A2" "bg.png" b H)).
Defined.

Lemma indexedIn_indexUnder_keep (abm : JsMap.t (JsMap.t string))
  (dir base rp d b : string) :
  indexedIn abm d b -> indexedIn (indexUnder abm dir base rp) d b.
Proof.
  intros (m & Hg & Hb). unfold indexedIn. rewrite indexUnder_get.
  destruct (String.eqb dir d) eqn:E; [|eauto].
  apply String.eqb_eq in E. subst d. rewrite Hg.
  exists (JsMap.set m base rp). split; [reflexivity|].
  rewrite JsMap_has_set, Hb. apply orb_true_r.
Qed.

Lemma indexedIn_indexUnder_new (abm : JsMap.t (JsMap.t string)) (dir base rp : string) :
  indexedIn (indexUnder abm dir base rp) dir base.
Proof.
  unfold indexedIn. rewrite indexUnder_get, String.eqb_refl.
  eexists. split; [reflexivity|]. rewrite JsMap_has_set, String.eqb_refl. reflexivity.
Qed.

Lemma indexedIn_indexFile_keep (idx : JsMap.t File * JsMap.t (JsMap.t string))
  (f : File) (d b : string) :
  indexedIn (snd idx) d b -> indexedIn (snd (indexFile idx f)) d b.
Proof.
  intros H. unfold indexFile.
  destruct (3 <=? _)%nat; [now apply indexedIn_indexUnder_keep|].
  destruct (_ =? 2)%nat; [now apply indexedIn_indexUnder_keep|exact H].
Qed.

(** The folder a path is indexed under. *)
Lemma indexFiles_indexed (l : list File) (f : File) :
  In f l ->
  (2 <= length (split "/" (relativePath f)))%nat ->
  indexedIn (snd (indexFiles l))
    (if (3 <=? length (split "/" (relativePath f)))%nat
     then nth 1 (split "/" (relativePath f)) "" else "__root__")
    (lastPart (split "/" (relativePath f))).
Proof.
  induction l as [|h l IH] using rev_ind; [intros []|].
  intros Hin Hlen. rewrite indexFiles_snoc.
  apply in_app_or in Hin as [Hin|[->|[]]].
  - apply indexedIn_indexFile_keep. now apply IH.
  - unfold indexFile.
    destruct (3 <=? length (split "/" (relativePath f)))%nat eqn:E3;
      [apply indexedIn_indexUnder_new|].
    apply Nat.leb_gt in E3.
    replace (length (split "/" (relativePath f)) =? 2)%nat with true
      by (symmetry; apply Nat.eqb_eq; lia).
    apply indexedIn_indexUnder_new.
Qed.

Lemma indexedIn_path (l : list File) (dir base : string) :
  indexedIn (snd (indexFiles l)) dir base ->
  exists m rp,
    JsMap.get (snd (indexFiles l)) dir = Some m
    /\ pathIn m base = Some rp
    /\ is_Some (JsMap.get (fst (indexFiles l)) rp)
    /\ endsWith rp ("/" ++ base) = true
    /\ (dir <> "__root__" -> nth 1 (split "/" rp) "" = dir).
Proof.
  intros (m & Hg & Hb). destruct (indexFiles_sound l) as [_ HB].
  apply JsMap_has_get in Hb as [rp Hrp].
  destruct (HB dir m base rp (JsMap_get_In _ _ _ Hg) (JsMap_get_In _ _ _ Hrp))
    as (He & Ht & Hh & Hd).
  exists m, rp. split; [exact Hg|].
  split; [apply truthyName_Some; auto|].
  split; [now apply JsMap_has_get|]. auto.
Qed.

(** X16.  Every selected file that lies in a folder can be found by its
    base name from any artboard.  Asked from the artboard folder the
    file lies in (the second segment of its path), [getFile] answers
    with a file of that very folder and name, whatever files of the
    same name other folders hold. *)
Theorem indexed_file_is_found (fileList : list File) (f : File) :
  In f fileList ->
  let parts := split "/" (relativePath f) in
  (2 <= length parts)%nat ->
  (forall abName,
     is_Some (getFile (fst (indexFiles fileList)) (snd (indexFiles fileList))
                      abName (lastPart parts)))
  /\ ((3 <= length parts)%nat -> nth 1 parts "" <> "__root__" ->
      exists g,
        getFile (fst (indexFiles fileList)) (snd (indexFiles fileList))
                (nth 1 parts "") (lastPart parts) = Some g
        /\ In g fileList
        /\ nth 1 (split "/" (relativePath g)) "" = nth 1 parts ""
        /\ endsWith (relativePath g) ("/" ++ lastPart parts) = true).
Proof.
  intros Hin parts Hlen.
  pose proof (indexFiles_indexed fileList f Hin Hlen) as Hidx.
  fold parts in Hidx.
  destruct (indexFiles_sound fileList) as [HA HB].
  split.
  - intros abName.
    destruct (indexedIn_path _ _ _ Hidx) as (m & rp & Hg & Hp & _).
    assert (Hfirst : is_Some (firstPath (snd (indexFiles fileList)) (lastPart parts))).
    { eapply firstPath_is_Some; [apply (JsMap_get_In _ _ _ Hg)|eauto]. }
    assert (Hhas : forall d m' fp, In (d, m') (snd (indexFiles fileList)) ->
               pathIn m' (lastPart parts) = Some fp ->
               is_Some (JsMap.get (fst (indexFiles fileList)) fp)).
    { intros d m' fp Hd Hfp. apply pathIn_In in Hfp.
      destruct (HB _ _ _ _ Hd Hfp) as (_ & _ & Hh & _). now apply JsMap_has_get. }
    unfold getFile.
    destruct (JsMap.get (snd (indexFiles fileList)) abName) as [af|] eqn:Eab.
    + destruct (pathIn af (lastPart parts)) as [fp|] eqn:Ep.
      { apply JsMap_get_In in Eab. eauto. }
      destruct Hfirst as [fp Hf]. rewrite Hf.
      apply firstPath_Some in Hf as (d & m' & Hd & Hfp). eauto.
    + destruct Hfirst as [fp Hf]. rewrite Hf.
      apply firstPath_Some in Hf as (d & m' & Hd & Hfp). eauto.
  - intros H3 Hroot.
    replace (3 <=? length parts)%nat with true in Hidx
      by (symmetry; now apply Nat.leb_le).
    destruct (indexedIn_path _ _ _ Hidx) as (m & rp & Hg & Hp & [g Hfile] & He & Hd).
    exists g. unfold getFile. rewrite Hg, Hp.
    split; [exact Hfile|].
    apply JsMap_get_In in Hfile. destruct (HA _ _ Hfile) as [Hgin ->].
    auto.
Qed.

Lemma indexed_file_is_found_witness :
  let a := {| file_name := "bg.png"; webkitRelativePath := "exp/A1/bg.png" |} in
  let b := {| file_name := "bg.png"; webkitRelativePath := "exp/A2/bg.png" |} in
  let c := {| file_name := "logo.svg"; webkitRelativePath := "exp/A2/sub/logo.svg" |} in
  is_Some (getFile (fst (indexFiles [a; b; c])) (snd (indexFiles [a; b; c]))
                   "A1" "logo.svg")
  /\ getFile (fst (indexFiles [a; b; c])) (snd (indexFiles [a; b; c])) "A1" "bg.png"
     = Some a.
Proof.
  intros a b c. split.
  - exact (proj1 (indexed_file_is_found [a; b; c] c
                    (or_intror (or_intror (or_introl eq_refl))) ltac:(cbn; lia)) "A1").
  - reflexivity.
Defined.

(** ** Masks *)


Section Masks.

Variable imageRefs : gmap string ImageRef.
Variable resolvedFonts : gmap string FontChoice.



End Masks.



(** ** The whole loop *)

Section Loop.

Variable imageRefs : gmap string ImageRef.
Variable resolvedFonts : gmap string FontChoice.

Let step := compileObject imageRefs resolvedFonts.

Ltac compile_cases obj :=
  unfold step, emitted, compileObject, objectSkipped;
  destruct (type obj), (textData obj) as [?td|];
  repeat (match goal with
          | |- context [imageRefs !! ?k] => destruct (imageRefs !! k) eqn:?
          | |- context [truthyName (generateShapePath ?a ?b ?c)] =>
              destruct (truthyName (generateShapePath a b c)) eqn:?
          | |- context [resolvedFonts !! ?k] =>
              destruct (resolvedFonts !! k) as [[?|]|] eqn:?
          | |- context [textSvgRef imageRefs ?o] =>
              destruct (textSvgRef imageRefs o) eqn:?
          end; cbn [negb bool_decide]).

Lemma step_elements (st : CompileState) (obj : LayoutObject) :
  elements (step st obj) = (elements st ++ emitted imageRefs resolvedFonts obj)%list
  /\ length (emitted imageRefs resolvedFonts obj)
     = (if objectSkipped imageRefs obj then 0 else 1)%nat.
Proof.
  compile_cases obj; cbn; rewrite ?app_nil_r; split; reflexivity.
Qed.

Lemma step_counts (st : CompileState) (obj : LayoutObject) :
  countsAgree st -> countsAgree (step st obj).
Proof.
  unfold countsAgree. intros [Hf Hs].
  compile_cases obj; cbn; rewrite ?List.filter_app, ?length_app; cbn;
    try (split; [assumption|lia]);
    try (unfold frameWithEffects;
         repeat match goal with
                | |- context [match ?o with Some _ => _ | None => _ end] => destruct o
                end; cbn; split; lia).
  all: split; lia.
Qed.

Lemma StronglySorted_snoc (l : list nat) (n : nat) :
  StronglySorted lt l -> Forall (fun m => (m < n)%nat) l -> StronglySorted lt (l ++ [n]).
Proof.
  induction l as [|m l IH]; intros Hs Hall; cbn.
  - repeat constructor.
  - apply StronglySorted_inv in Hs as [Hs Hm].
    apply Forall_cons in Hall as [Hmn Hall].
    constructor; [now apply IH|].
    apply Forall_app. split; [exact Hm|]. now constructor.
Qed.

Lemma step_ordered (st : CompileState) (obj : LayoutObject) :
  assignmentsOrdered st -> assignmentsOrdered (step st obj).
Proof.
  intros [Hs Hall]. unfold step.
  destruct (step_cases imageRefs resolvedFonts st obj)
    as [[_ ->]|[_ (e & _ & Hi & Ho)]]; [now split|].
  unfold assignmentsOrdered. rewrite Ho, Hi.
  assert (Hold : Forall (fun a => (elementIndex a < S (elementIdx st))%nat
                                  /\ (assignedOpacity a < 1)%Q) (opacityMap st)).
  { eapply Forall_impl; [exact Hall|]. cbn beta. intros a [H1 H2]. split; [lia|exact H2]. }
  unfold assignmentAt. destruct (opacity obj) as [op|];
    [|rewrite app_nil_r; now split].
  destruct (Qltb op 1) eqn:Eop; [|rewrite app_nil_r; now split].
  split.
  - rewrite fmap_app. cbn. apply StronglySorted_snoc; [exact Hs|].
    apply Forall_fmap. eapply Forall_impl; [exact Hall|]. cbn. intros a [H1 _]. exact H1.
  - apply Forall_app. split; [exact Hold|]. constructor; [|constructor]. cbn.
    split; [lia|].
    unfold Qltb in Eop. apply negb_true_iff in Eop.
    destruct (Qlt_le_dec op 1) as [Hlt|Hle]; [exact Hlt|].
    apply Qle_bool_iff in Hle. congruence.
Qed.

(** X19.  The sequence a run submits is the concatenation, in paint
    order, of what each object contributes on its own: a contribution
    does not depend on the objects before it, a skipped object
    contributes nothing and any other exactly one element; so the page
    has as many elements as the run has objects that are not skipped, at
    most one per object. *)
Theorem elements_follow_the_objects (objs : list LayoutObject) :
  let final := fold_left (compileObject imageRefs resolvedFonts) objs
                         initialCompileState in
  elements final = concat (emitted imageRefs resolvedFonts <$> objs)
  /\ length (elements final)
     = length (List.filter (fun o => negb (objectSkipped imageRefs o)) objs)
  /\ (length (elements final) <= length objs)%nat
  /\ (forall (st : CompileState) (obj : LayoutObject),
        elements (compileObject imageRefs resolvedFonts st obj)
        = (elements st ++ emitted imageRefs resolvedFonts obj)%list).
Proof.
  assert (H : forall st,
             elements (fold_left step objs st)
             = (elements st ++ concat (emitted imageRefs resolvedFonts <$> objs))%list
             /\ length (concat (emitted imageRefs resolvedFonts <$> objs))
                = length (List.filter (fun o => negb (objectSkipped imageRefs o)) objs)).
  { induction objs as [|o rest IH]; intros st; cbn [fold_left fmap list_fmap concat].
    - now rewrite app_nil_r.
    - destruct (IH (step st o)) as [He Hl]. destruct (step_elements st o) as [Hs Hn].
      split; [now rewrite He, Hs, <- app_assoc|].
      rewrite length_app, Hn. change (list_fmap _ _ (emitted imageRefs resolvedFonts) rest)
        with (emitted imageRefs resolvedFonts <$> rest).
      rewrite Hl. cbn [List.filter]. destruct (objectSkipped imageRefs o); cbn; lia. }
  intros final. destruct (H initialCompileState) as [He Hl].
  unfold step in He. fold final in He. cbn [elements initialCompileState app] in He.
  split; [exact He|]. rewrite He, Hl.
  split; [reflexivity|]. split; [apply List.filter_length_le|].
  intros st obj. apply step_elements.
Qed.

(** X20.  In every run the recorded assignments are in strictly
    increasing order of element index, so no element is assigned
    twice; every index is below the number of elements emitted, and
    every recorded opacity is strictly below 1. *)
Theorem assignments_are_ordered (objs : list LayoutObject) :
  let final := fold_left (compileObject imageRefs resolvedFonts) objs
                         initialCompileState in
  StronglySorted lt (elementIndex <$> opacityMap final)
  /\ NoDup (elementIndex <$> opacityMap final)
  /\ Forall (fun a => (elementIndex a < length (elements final))%nat
                      /\ (assignedOpacity a < 1)%Q) (opacityMap final)
  /\ (length (opacityMap final) <= length (elements final))%nat.
Proof.
  assert (H : forall st, assignmentsOrdered st ->
                         assignmentsOrdered (fold_left step objs st)).
  { induction objs as [|o rest IH]; intros st Hst; cbn [fold_left]; [exact Hst|].
    apply IH. now apply step_ordered. }
  intros final.
  destruct (H initialCompileState) as [Hs Hall]; [split; constructor|].
  destruct (run_lockstep imageRefs resolvedFonts objs _ initial_lockstep) as [Hidx _].
  unfold step in Hs, Hall. fold final in Hs, Hall, Hidx. rewrite Hidx in Hall.
  assert (Hnd : NoDup (elementIndex <$> opacityMap final)).
  { clear -Hs. induction Hs as [|n l Hl IH Hn]; constructor; [|exact IH].
    intros Hin. rewrite Forall_forall in Hn. specialize (Hn n Hin). lia. }
  split; [exact Hs|]. split; [exact Hnd|]. split; [exact Hall|].
  assert (Hbound : Forall (fun n => (n < length (elements final))%nat)
                          (elementIndex <$> opacityMap final)).
  { apply Forall_fmap. eapply Forall_impl; [exact Hall|]. cbn. now intros a [H1 _]. }
  rewrite <- (length_fmap elementIndex).
  revert Hnd Hbound. generalize (elementIndex <$> opacityMap final) as l.
  generalize (length (elements final)) as n. clear.
  intros n l Hnd Hb.
  assert (Hsub : l ⊆ seq 0 n).
  { intros k Hk. rewrite Forall_forall in Hb. apply elem_of_seq. specialize (Hb k Hk). lia. }
  pose proof (submseteq_length l (seq 0 n) (NoDup_submseteq l (seq 0 n) Hnd Hsub)) as Hlen.
  now rewrite length_seq in Hlen.
Qed.

(** X21.  The two statistics of a run agree with the sequence: the
    frame counter is the number of shapes and groups in it, and frames
    and text SVGs together never exceed the number of elements. *)
Theorem statistics_agree_with_elements (objs : list LayoutObject) :
  let final := fold_left (compileObject imageRefs resolvedFonts) objs
                         initialCompileState in
  frameCount final = length (List.filter isFrame (elements final))
  /\ (svgCount final + frameCount final <= length (elements final))%nat.
Proof.
  assert (H : forall st, countsAgree st -> countsAgree (fold_left step objs st)).
  { induction objs as [|o rest IH]; intros st Hst; cbn [fold_left]; [exact Hst|].
    apply IH. now apply step_counts. }
  intros final. destruct (H initialCompileState) as [Hf Hs]; [split; cbn; lia|].
  destruct (run_lockstep imageRefs resolvedFonts objs _ initial_lockstep) as [Hidx _].
  unfold step in Hf, Hs. fold final in Hf, Hs, Hidx. rewrite Hidx in Hs. now split.
Qed.

End Loop.

(** ** Every run of the retry loop *)

(** X22.  Whatever the host answers, the retry loop calls it for the
    attempts 1 to [n] with [n] at most 5, sleeps between them the first
    [n - 1] delays of 3000, 6000, 12000, 24000 ms (45 s in all at most),
    sees a rate-limit error at every attempt before the last, and ends
    with success exactly when attempt [n] created the page; otherwise it
    rethrows the error of attempt [n]. *)
Theorem retry_run_shape (addPage : Z -> AddPageResult) :
  let run := createPageWithRetry addPage in
  exists n : nat,
    (1 <= n <= 5)%nat
    /\ attempts run = Z.of_nat <$> seq 1 n
    /\ delays run = firstn (n - 1) [3000; 6000; 12000; 24000]
    /\ (foldr Z.add 0 (delays run) <= 45000)%Z
    /\ (forall k, (1 <= k < n)%nat ->
          exists s, addPage (Z.of_nat k) = PageError s /\ isRateLimit s = true)
    /\ match addPage (Z.of_nat n) with
       | PageCreated => outcome run = Succeeded
       | PageError s =>
           outcome run = Fatal s /\ (isRateLimit s = true -> n = 5%nat)
       end.
Proof.
  unfold createPageWithRetry, BASE_DELAY.
  cbn [retryFrom]. cbv zeta.
  change (1 + 1) with 2. change (2 + 1) with 3.
  change (3 + 1) with 4. change (4 + 1) with 5.
  change (3000 * 2) with 6000. change (6000 * 2) with 12000.
  change (12000 * 2) with 24000. change (24000 * 2) with 48000.
  change (1 <=? 5) with true. change (2 <=? 5) with true. change (3 <=? 5) with true.
  change (4 <=? 5) with true. change (5 <=? 5) with true.
  change (1 <? 5) with true. change (2 <? 5) with true. change (3 <? 5) with true.
  change (4 <? 5) with true. change (5 <? 5) with false.
  cbv iota.
  destruct (addPage 1) as [|s1] eqn:E1.
  { exists 1%nat. change (Z.of_nat 1) with 1. rewrite E1. cbn.
    repeat split; try lia. }
  destruct (isRateLimit s1) eqn:R1; cbn [andb].
  2:{ exists 1%nat. change (Z.of_nat 1) with 1. rewrite E1. cbn.
      repeat split; try lia. congruence. }
  destruct (addPage 2) as [|s2] eqn:E2.
  { exists 2%nat. change (Z.of_nat 2) with 2. rewrite E2. cbn.
    repeat split; try lia.
    intros k Hk'. assert (k = 1%nat) as -> by lia. exists s1. now split. }
  destruct (isRateLimit s2) eqn:R2; cbn [andb].
  2:{ exists 2%nat. change (Z.of_nat 2) with 2. rewrite E2. cbn.
      repeat split; try lia; [|congruence].
      intros k Hk'. assert (k = 1%nat) as -> by lia. exists s1. now split. }
  destruct (addPage 3) as [|s3] eqn:E3.
  { exists 3%nat. change (Z.of_nat 3) with 3. rewrite E3. cbn.
    repeat split; try lia.
    intros k Hk'. assert (k = 1 \/ k = 2)%nat as [-> | ->] by lia;
      [exists s1|exists s2]; now split. }
  destruct (isRateLimit s3) eqn:R3; cbn [andb].
  2:{ exists 3%nat. change (Z.of_nat 3) with 3. rewrite E3. cbn.
      repeat split; try lia; [|congruence].
      intros k Hk'. assert (k = 1 \/ k = 2)%nat as [-> | ->] by lia;
        [exists s1|exists s2]; now split. }
  destruct (addPage 4) as [|s4] eqn:E4.
  { exists 4%nat. change (Z.of_nat 4) with 4. rewrite E4. cbn.
    repeat split; try lia.
    intros k Hk'. assert (k = 1 \/ k = 2 \/ k = 3)%nat as [-> |[-> | ->]] by lia;
      [exists s1|exists s2|exists s3]; now split. }
  destruct (isRateLimit s4) eqn:R4; cbn [andb].
  2:{ exists 4%nat. change (Z.of_nat 4) with 4. rewrite E4. cbn.
      repeat split; try lia; [|congruence].
      intros k Hk'. assert (k = 1 \/ k = 2 \/ k = 3)%nat as [-> |[-> | ->]] by lia;
        [exists s1|exists s2|exists s3]; now split. }
  assert (Hall : forall k, (1 <= k < 5)%nat ->
             exists s, addPage (Z.of_nat k) = PageError s /\ isRateLimit s = true).
  { intros k Hk'.
    assert (k = 1 \/ k = 2 \/ k = 3 \/ k = 4)%nat as [-> |[-> |[-> | ->]]] by lia;
      [exists s1|exists s2|exists s3|exists s4]; now split. }
  exists 5%nat. change (Z.of_nat 5) with 5.
  destruct (addPage 5) as [|s5] eqn:E5.
  - cbn. repeat split; try lia. exact Hall.
  - rewrite andb_false_r. cbn. repeat split; try lia. exact Hall.
Qed.

(** ** The opacity pass *)

Lemma applyAssignment_spec (els : list PageElement) (a : OpacityAssignment) :
  length (applyAssignment els a) = length els
  /\ forall i el, els !! i = Some el ->
       applyAssignment els a !! i
       = Some (if decide (elementIndex a = i) then corrected a el else el).
Proof.
  unfold applyAssignment, corrected.
  destruct (elementIndex a <? length els)%nat eqn:Elt.
  - apply Nat.ltb_lt in Elt.
    destruct (els !! elementIndex a) as [el0|] eqn:E0;
      [|apply lookup_ge_None in E0; lia].
    destruct (negb (el_unsupported el0) && negb (el_locked el0))%bool eqn:Eed.
    + split; [apply length_insert|]. intros i el Hi.
      destruct (decide (elementIndex a = i)) as [<-|Hne].
      * rewrite list_lookup_insert_eq by exact Elt.
        assert (el = el0) as -> by congruence. now rewrite Eed.
      * now rewrite list_lookup_insert_ne.
    + split; [reflexivity|]. intros i el Hi.
      destruct (decide (elementIndex a = i)) as [<-|Hne]; [|exact Hi].
      assert (el = el0) as -> by congruence. now rewrite Eed.
  - apply Nat.ltb_ge in Elt. split; [reflexivity|]. intros i el Hi.
    destruct (decide (elementIndex a = i)) as [<-|Hne]; [|exact Hi].
    apply lookup_lt_Some in Hi. lia.
Qed.

Lemma opacity_fold (om : list OpacityAssignment) :
  forall els : list PageElement,
    NoDup (elementIndex <$> om) ->
    length (fold_left applyAssignment om els) = length els
    /\ forall i el, els !! i = Some el ->
         ((forall a, a ∈ om -> elementIndex a <> i) ->
          fold_left applyAssignment om els !! i = Some el)
         /\ (forall a, a ∈ om -> elementIndex a = i ->
               fold_left applyAssignment om els !! i = Some (corrected a el)).
Proof.
  induction om as [|a rest IH]; intros els Hnd; cbn [fold_left].
  - split; [reflexivity|]. intros i el Hi. split; [auto|]. intros a Ha. inversion Ha.
  - rewrite fmap_cons in Hnd. apply NoDup_cons in Hnd as [Ha Hrest].
    destruct (applyAssignment_spec els a) as [Hlen Hlook].
    destruct (IH (applyAssignment els a) Hrest) as [Hlen' Hfold].
    split; [congruence|]. intros i el Hi.
    pose proof (Hlook i el Hi) as H1.
    assert (Hfree : elementIndex a = i -> forall b, b ∈ rest -> elementIndex b <> i).
    { intros <- b Hb Eb. apply Ha. rewrite <- Eb. now apply list_elem_of_fmap_2. }
    split.
    + intros Hno. assert (Hne : elementIndex a <> i) by (apply Hno; now left).
      destruct (decide (elementIndex a = i)); [contradiction|].
      apply (Hfold i el H1). intros b Hb. apply Hno. now right.
    + intros b Hb Eb. apply elem_of_cons in Hb as [->|Hb].
      * destruct (decide (elementIndex a = i)); [|contradiction].
        apply (Hfold i _ H1). now apply Hfree.
      * destruct (decide (elementIndex a = i)) as [Ea|Ea];
          [now destruct (Hfree Ea b Hb)|].
        now apply (Hfold i el H1).
Qed.

(** X23.  The opacity pass does nothing on a page that is locked or not
    absolute.  Otherwise, for assignments with distinct indices, it
    keeps the number of elements; an element no assignment points at is
    untouched; an element an assignment points at gets the transparency
    [1 - opacity] when it is supported and not locked and is untouched
    otherwise; an assignment whose index is beyond the page is ignored. *)
Theorem opacity_pass_touches_only_its_targets (page : Page)
  (opacityMap : list OpacityAssignment) :
  NoDup (elementIndex <$> opacityMap) ->
  (page_absolute page = false \/ page_locked page = true ->
   opacityCallback page opacityMap = None)
  /\ (page_absolute page = true -> page_locked page = false ->
      exists els,
        opacityCallback page opacityMap = Some els
        /\ length els = length (page_elements page)
        /\ (forall i el, page_elements page !! i = Some el ->
              ((forall a, a ∈ opacityMap -> elementIndex a <> i) ->
               els !! i = Some el)
              /\ (forall a, a ∈ opacityMap -> elementIndex a = i ->
                    els !! i = Some (corrected a el)
                    /\ (el_unsupported el = false -> el_locked el = false ->
                        el_transparency (corrected a el)
                        = Some (1 - assignedOpacity a)%Q)
                    /\ (el_unsupported el = true \/ el_locked el = true ->
                        corrected a el = el)))).
Proof.
  intros Hnd. unfold opacityCallback. split.
  - intros [-> | ->]; [reflexivity|]. now rewrite orb_true_r.
  - intros -> ->. cbn [negb orb].
    destruct (opacity_fold opacityMap (page_elements page) Hnd) as [Hlen Hfold].
    eexists. split; [reflexivity|]. split; [exact Hlen|].
    intros i el Hi. destruct (Hfold i el Hi) as [H1 H2]. split; [exact H1|].
    intros a Ha Ea. split; [now apply H2|]. unfold corrected. split.
    + intros -> ->. reflexivity.
    + intros [-> | ->]; [reflexivity|]. now rewrite andb_false_r.
Qed.

Lemma opacity_pass_touches_only_its_targets_witness :
  let plain := {| el_unsupported := false; el_locked := false; el_transparency := None |} in
  let locked := {| el_unsupported := false; el_locked := true; el_transparency := None |} in
  let page := {| page_absolute := true; page_locked := false;
                 page_elements := [plain; locked; plain] |} in
  opacityCallback page [ {| elementIndex := 0; assignedOpacity := 1 # 4 |};
                         {| elementIndex := 1; assignedOpacity := 1 # 2 |};
                         {| elementIndex := 7; assignedOpacity := 1 # 2 |} ]
  = Some [ {| el_unsupported := false; el_locked := false;
              el_transparency := Some (1 - (1 # 4))%Q |}; locked; plain ].
Proof.
  intros plain locked page.
  assert (Hnd : NoDup (elementIndex <$>
                         [ {| elementIndex := 0; assignedOpacity := 1 # 4 |};
                           {| elementIndex := 1; assignedOpacity := 1 # 2 |};
                           {| elementIndex := 7; assignedOpacity := 1 # 2 |} ]))
    by (apply (bool_decide_unpack (NoDup [0; 1; 7]%nat)); vm_compute; exact I).
  destruct (proj2 (opacity_pass_touches_only_its_targets page _ Hnd) eq_refl eq_refl)
    as (els & Hels & _).
  rewrite Hels. cbn in Hels. injection Hels as <-. reflexivity.
Defined.





(** ** The log *)

Lemma addLog_history (history : list string) :
  fold_left addLog history [] = skipn (length history - 81) history.
Proof.
  induction history as [|m h IH] using rev_ind; [reflexivity|].
  rewrite fold_left_app. cbn [fold_left]. rewrite IH.
  unfold addLog, lastEighty.
  rewrite List.skipn_skipn, List.length_skipn, length_app. cbn [length].
  rewrite List.skipn_app.
  replace (length h + 1 - 81 - length h)%nat with 0%nat by lia.
  cbn [skipn]. f_equal. f_equal. lia.
Qed.

(** X25.  The log never holds more than 81 lines: after any sequence
    of messages it is the last 81 of them, and it always ends with the
    message logged last. *)
Theorem log_keeps_the_last_messages (history : list string) (msg : string) :
  let log := fold_left addLog (history ++ [msg]) [] in
  (length log <= 81)%nat
  /\ log = skipn (length (history ++ [msg]) - 81) (history ++ [msg])
  /\ List.last log "" = msg
  /\ ((length history <= 80)%nat -> log = (history ++ [msg])%list).
Proof.
  intros log. unfold log. rewrite addLog_history.
  rewrite List.length_skipn, length_app. cbn [length].
  split; [lia|]. split; [reflexivity|].
  rewrite List.skipn_app.
  replace (length history + 1 - 81 - length history)%nat with 0%nat by lia.
  cbn [skipn]. split; [apply List.last_last|].
  intros Hle. replace (length history + 1 - 81)%nat with 0%nat by lia. reflexivity.
Qed.

Lemma log_keeps_the_last_messages_witness :
  fold_left addLog (["a"; "b"] ++ ["c"]) [] = ["a"; "b"; "c"].
Proof.
  exact (proj2 (proj2 (proj2 (log_keeps_the_last_messages ["a"; "b"] "c")))
           ltac:(cbn; lia)).
Defined.

(** ** Style stripping *)

Lemma all_chars_remove_separators (s : string) :
  all_chars (fun c => negb (is_separator c)) (remove_separators s) = true.
Proof.
  induction s as [|c t IH]; [reflexivity|].
  cbn [remove_separators]. destruct (is_separator c) eqn:E; [exact IH|].
  cbn [all_chars]. now rewrite E, IH.
Qed.

Lemma is_space_is_separator (c : ascii) : is_space c = true -> is_separator c = true.
Proof. unfold is_separator. now intros ->. Qed.

Lemma trimEnd_no_separator (s : string) :
  all_chars (fun c => negb (is_separator c)) s = true -> trimEnd s = s.
Proof.
  induction s as [|c t IH]; [reflexivity|].
  cbn [all_chars]. intros H. apply andb_prop in H as [Hc Ht].
  cbn [trimEnd]. rewrite (IH Ht).
  destruct t as [|d t']; [|reflexivity].
  destruct (is_space c) eqn:E; [|reflexivity].
  apply is_space_is_separator in E. rewrite E in Hc. discriminate.
Qed.

Lemma trim_no_separator (s : string) :
  all_chars (fun c => negb (is_separator c)) s = true -> trim s = s.
Proof.
  intros H. unfold trim.
  assert (Hs : trimStart s = s).
  { destruct s as [|c t]; [reflexivity|]. cbn [all_chars] in H.
    apply andb_prop in H as [Hc _]. cbn [trimStart].
    destruct (is_space c) eqn:E; [|reflexivity].
    apply is_space_is_separator in E. rewrite E in Hc. discriminate. }
  rewrite Hs. now apply trimEnd_no_separator.
Qed.

Lemma replace_style_no_token (s : string) :
  noStyleToken s = true -> replace_style 0 s = s.
Proof.
  induction s as [|c t IH]; [reflexivity|].
  cbn [noStyleToken replace_style]. intros H. apply andb_prop in H as [Hm Ht].
  destruct (match_style_at (String c t)); [discriminate|]. now rewrite (IH Ht).
Qed.

(** X26.  The style-stripped form of a name holds no separator and is
    never longer than the normalized form, and the final [trim] of
    [stripStyle] never removes anything.  For a name in which no style
    word occurs the stripped form is the normalized form itself, so the
    guard of the third tier of the matcher, which demands that the two
    differ, is false for it. *)
Theorem stripStyle_refines_norm (s : string) :
  all_chars (fun c => negb (is_separator c)) (stripStyle s) = true
  /\ (String.length (stripStyle s) <= String.length (norm s))%nat
  /\ stripStyle s = remove_separators (replace_style 0 (toLowerCase s))
  /\ (noStyleToken (toLowerCase s) = true ->
      stripStyle s = norm s
      /\ forall normC : JsMap.t FontRef,
           (truthy (stripStyle s) && negb (String.eqb (stripStyle s) (norm s))
            && JsMap.has normC (stripStyle s))%bool = false).
Proof.
  assert (Ht : stripStyle s = remove_separators (replace_style 0 (toLowerCase s))).
  { unfold stripStyle. apply trim_no_separator, all_chars_remove_separators. }
  split; [rewrite Ht; apply all_chars_remove_separators|].
  split; [apply stripStyle_length_le_norm|]. split; [exact Ht|].
  intros Hno.
  assert (E : stripStyle s = norm s).
  { rewrite Ht. unfold norm. now rewrite replace_style_no_token. }
  split; [exact E|]. intros normC.
  rewrite E, String.eqb_refl. cbn [negb]. now rewrite andb_false_r.
Qed.

Lemma stripStyle_refines_norm_witness :
  stripStyle "Open Sans" = "opensans" /\ stripStyle "Open Sans Bold" = "opensans".
Proof.
  split; [|reflexivity].
  exact (proj1 (proj2 (proj2 (proj2 (stripStyle_refines_norm "Open Sans"))) eq_refl)).
Defined.

(** ** From the selected files to the page *)


